(** * ais-forwarder: a shallow embedding of the forwarding engine

    The development follows the crate [ais-forwarder]:
    - [location.rs]: the Location worker ([location_loop], [resend_messages],
      [parse_message], [format_lat_long], [format_option]);
    - [cache.rs]: the [Persistence] wrapper over an ordered key/value store;
    - [main.rs]: the [Dispatcher] ([work], [check_last_sent],
      [broadcast_ais], [next_location_instant]), the rebuild loop of [main]
      and the motion gate [is_moving], and the forwarding [send_message];
    - [common/src/lib.rs]: [Protocol] and [NetworkEndpoint] parsing and
      printing;
    - [location-receiver]: the connection loop of [main] and
      [process_message].

    Floating-point values ([f64]) are Rocq's primitive binary64 floats, so
    [is_moving] and [format_lat_long] compute exactly as the Rust code does.
    Network, parser and clock are the environment: they are given as
    oracles (functions of the index of the call), and everything the
    program does with their answers is modelled. *)

From Stdlib Require Import ZArith Floats String Ascii List Lia Sorted OrdersEx.
From stdpp Require Import base gmap.

Import ListNotations.
Open Scope string_scope.
Open Scope Z_scope.

(* ------------------------------------------------------------------ *)
(** ** Decimal printing: Rust's [{}] on integers and [{:.p}] on f64 *)

Module Fmt.

(** Decimal digits of a non-negative integer, prepended to [acc]. *)
Fixpoint digits_aux (fuel : nat) (n : Z) (acc : string) : string :=
  match fuel with
  | O => acc
  | S f =>
      let acc' := String (ascii_of_nat (48 + Z.to_nat (n mod 10))) acc in
      if n <? 10 then acc' else digits_aux f (n / 10) acc'
  end.

(** [format!("{}", n)] for an unsigned integer. *)
Definition z_to_dec (n : Z) : string :=
  digits_aux (S (Z.to_nat (Z.log2 n))) n "".

(** Left padding with '0' up to width [w] (the [{:0w}] of the fraction). *)
Definition pad_zero (w : nat) (s : string) : string :=
  append (string_of_list_ascii (repeat "0"%char (w - String.length s))) s.

(** [round(m * 2^e * 10^p)] with ties to even, the exact rounding of Rust's
    fixed-precision float formatting. *)
Definition round_scaled (m : positive) (e : Z) (p : nat) : Z :=
  let num := Z.pos m * 10 ^ Z.of_nat p in
  if 0 <=? e then num * 2 ^ e
  else
    let den := 2 ^ (- e) in
    let q := num / den in
    let r := num mod den in
    match Z.compare (2 * r) den with
    | Gt => q + 1
    | Eq => if Z.even q then q else q + 1
    | Lt => q
    end.

Definition sign_str (s : bool) : string := if s then "-" else "".

Definition fixed_digits (n : Z) (p : nat) : string :=
  match p with
  | O => z_to_dec n
  | _ => append (z_to_dec (n / 10 ^ Z.of_nat p))
           (append "." (pad_zero p (z_to_dec (n mod 10 ^ Z.of_nat p))))
  end.

(** [format!("{:.p}", x)] for [x : f64]. *)
Definition fmt_fixed (p : nat) (x : float) : string :=
  match Prim2SF x with
  | SpecFloat.S754_zero s => append (sign_str s) (fixed_digits 0 p)
  | SpecFloat.S754_infinity s => append (sign_str s) "inf"
  | SpecFloat.S754_nan => "NaN"
  | SpecFloat.S754_finite s m e => append (sign_str s) (fixed_digits (round_scaled m e p) p)
  end.

End Fmt.

(* ------------------------------------------------------------------ *)
(** ** f64 helpers *)

(** [f64::trunc]: rounding toward zero, keeping the sign. *)
Definition f64_trunc (x : float) : float :=
  match Prim2SF x with
  | SpecFloat.S754_finite s m e =>
      if 0 <=? e then x
      else
        let r := PrimFloat.of_uint63 (Uint63.of_Z (Z.pos m / 2 ^ (- e))) in
        if s then PrimFloat.opp r else r
  | _ => x
  end.

(** [a >= b] and [a > b] on f64 (false as soon as one side is NaN). *)
Definition f64_ge (a b : float) : bool := PrimFloat.leb b a.
Definition f64_gt (a b : float) : bool := PrimFloat.ltb b a.

(* ------------------------------------------------------------------ *)
(** ** [main.rs]: [is_moving] *)

Definition motion_threshold : float := 0.001%float.

(** [fn is_moving(lat, long, prev_lat, prev_long) -> bool] *)
Definition is_moving (lat long : option float) (prev_lat prev_long : float) : bool :=
  match lat, long with
  | Some lat, Some long =>
      let lat_diff := PrimFloat.abs (PrimFloat.sub lat prev_lat) in
      let long_diff := PrimFloat.abs (PrimFloat.sub long prev_long) in
      if f64_gt lat_diff motion_threshold || f64_gt long_diff motion_threshold
      then true else false
  | _, _ => false
  end.

(* ------------------------------------------------------------------ *)
(** ** [location.rs]: [format_option] and [format_lat_long] *)

(** [fn format_option(value: Option<f64>) -> String] *)
Definition format_option (value : option float) : string :=
  match value with
  | Some value => Fmt.fmt_fixed 1 value
  | None => ""
  end.

(** [fn format_lat_long(latlon: Option<f64>, is_lat: bool) -> String] *)
Definition format_lat_long (latlon : option float) (is_lat : bool) : string :=
  match latlon with
  | Some value =>
      let hemisphere :=
        if is_lat then (if f64_ge value 0.0%float then "N" else "S")
        else (if f64_ge value 0.0%float then "E" else "W") in
      let abs_value := PrimFloat.abs value in
      let degrees := f64_trunc abs_value in
      let minutes := PrimFloat.mul (PrimFloat.sub abs_value degrees) 60.0%float in
      append (Fmt.fmt_fixed 5 (PrimFloat.add (PrimFloat.mul degrees 100.0%float) minutes))
        (append "," hemisphere)
  | None => ","
  end.

Example format_lat_long_5317 : format_lat_long (Some 53.17%float) true = "5310.20000,N"%string.
Proof. vm_compute. reflexivity. Qed.
Example format_lat_long_5318 : format_lat_long (Some 53.18%float) true = "5310.80000,N"%string.
Proof. vm_compute. reflexivity. Qed.
Example format_lat_long_neg : format_lat_long (Some (-5.42)%float) false = "525.20000,W"%string.
Proof. vm_compute. reflexivity. Qed.
Example format_option_ex : format_option (Some 12.25%float) = "12.2"%string.
Proof. vm_compute. reflexivity. Qed.

(* ------------------------------------------------------------------ *)
(** ** Parsed messages (the external [nmea_parser] crate, interface only) *)

(** [chrono::DateTime<Utc>], broken into its calendar fields. *)
Record Utc := mkUtc {
  utc_year : Z; utc_month : Z; utc_day : Z;
  utc_hour : Z; utc_minute : Z; utc_second : Z; utc_nanos : Z
}.

Record VesselDynamicData := mkVDD {
  vd_mmsi : Z; vd_own_vessel : bool;
  vd_latitude : option float; vd_longitude : option float
}.

Record VesselStaticData := mkVSD { vs_mmsi : Z; vs_own_vessel : bool }.

Record RmcData := mkRmc {
  rmc_timestamp : option Utc;
  rmc_latitude : option float; rmc_longitude : option float;
  rmc_sog_knots : option float; rmc_bearing : option float
}.

(** [nmea_parser::ParsedMessage]; [Other] stands for every other variant. *)
Inductive ParsedMessage :=
| Incomplete
| VesselDynamicData_ (d : VesselDynamicData)
| VesselStaticData_ (d : VesselStaticData)
| Rmc (d : RmcData)
| Other (tag : string).

(* ------------------------------------------------------------------ *)
(** ** chrono formatting used by [parse_message] *)

Definition two_digits (n : Z) : string := Fmt.pad_zero 2 (Fmt.z_to_dec n).

(** [now.format("%H%M%S")] *)
Definition fmt_time (t : Utc) : string :=
  two_digits (utc_hour t) ++ two_digits (utc_minute t) ++ two_digits (utc_second t).

(** [now.format("%d%m%y")] *)
Definition fmt_date (t : Utc) : string :=
  two_digits (utc_day t) ++ two_digits (utc_month t) ++ two_digits (utc_year t mod 100).

(** Fraction of a second as chrono's [Display] prints it. *)
Definition fmt_nanos (n : Z) : string :=
  if n =? 0 then ""
  else if n mod 1000000 =? 0 then "." ++ Fmt.pad_zero 3 (Fmt.z_to_dec (n / 1000000))
  else if n mod 1000 =? 0 then "." ++ Fmt.pad_zero 6 (Fmt.z_to_dec (n / 1000))
  else "." ++ Fmt.pad_zero 9 (Fmt.z_to_dec n).

(** [format!("{}", now)] for a [DateTime<Utc>]: [2025-01-02 03:04:05.5 UTC]. *)
Definition display_utc (t : Utc) : string :=
  Fmt.pad_zero 4 (Fmt.z_to_dec (utc_year t)) ++ "-" ++ two_digits (utc_month t) ++ "-"
  ++ two_digits (utc_day t) ++ " " ++ two_digits (utc_hour t) ++ ":"
  ++ two_digits (utc_minute t) ++ ":" ++ two_digits (utc_second t)
  ++ fmt_nanos (utc_nanos t) ++ " UTC".

Definition crlf : string := String (ascii_of_nat 13) (String (ascii_of_nat 10) EmptyString).

(* ------------------------------------------------------------------ *)
(** ** [cache.rs]: [Persistence] over an ordered key/value store *)

Module Persistence.

(** The sled tree: entries kept in key order, one per key. *)
Record Persistence := mkPersistence { db : list (string * string); count : nat }.

Fixpoint kv_lookup (k : string) (l : list (string * string)) : option string :=
  match l with
  | [] => None
  | (k', v') :: t => if String.eqb k k' then Some v' else kv_lookup k t
  end.

Fixpoint kv_insert (k v : string) (l : list (string * string)) : list (string * string) :=
  match l with
  | [] => [(k, v)]
  | (k', v') :: t =>
      match String.compare k k' with
      | Lt => (k, v) :: l
      | Eq => (k, v) :: t
      | Gt => (k', v') :: kv_insert k v t
      end
  end.

Definition kv_remove (k : string) (l : list (string * string)) : list (string * string) :=
  List.filter (fun kv => negb (String.eqb (fst kv) k)) l.

(** [pub fn store(&mut self, key, value)]: count grows on a true insert. *)
Definition store (p : Persistence) (key value : string) : Persistence :=
  mkPersistence (kv_insert key value (db p))
    (match kv_lookup key (db p) with None => S (count p) | Some _ => count p end).

(** [pub fn remove(&mut self, key)]: count shrinks on a true removal. *)
Definition remove (p : Persistence) (key : string) : Persistence :=
  mkPersistence (kv_remove key (db p))
    (match kv_lookup key (db p) with Some _ => Nat.pred (count p) | None => count p end).

(** [flush] forces durability; it does not change the contents. *)
Definition flush (p : Persistence) : Persistence := p.

(** [iter] walks the entries in key order. *)
Definition iter (p : Persistence) : list (string * string) := db p.

(** One entry per key and a cached count equal to the number of entries. *)
Definition wf (p : Persistence) : Prop :=
  List.NoDup (map fst (db p)) /\ count p = length (db p).

(** [pub fn new()]: the tree is opened and the count read from it ([db.len()]). *)
Definition open (entries : list (string * string)) : Persistence :=
  mkPersistence entries (length entries).

(** [pub fn get(&self, key) -> Option<Vec<u8>>]: [Ok(None)] and a logged
    read error both give [None]; the modelled tree does not fail. *)
Definition get (p : Persistence) (key : string) : option string := kv_lookup key (db p).

(** [pub fn clear(&self)]: empties the tree; [count] is not touched
    (the method takes [&self]). *)
Definition clear (p : Persistence) : Persistence := mkPersistence [] (count p).

End Persistence.

(* ------------------------------------------------------------------ *)
(** ** [location.rs]: the Location worker *)

Module Location.

(** What the worker owns and observes: the persistence, the number of
    [send_message] calls issued so far and the log of those calls
    (sink name, payload, whether it returned [Ok]). *)
Record LWorld := mkLWorld {
  persistence : Persistence.Persistence;
  nsend : nat;
  sent : list (string * string * bool)
}.

Definition set_persistence (w : LWorld) (p : Persistence.Persistence) : LWorld :=
  mkLWorld p (nsend w) (sent w).

(** Events of [rx.recv_timeout(MESSAGE_TIMEOUT)]. *)
Inductive Recv :=
| RecvOk (message : ParsedMessage) (now : Utc)
| RecvTimeout
| RecvDisconnected.

Section Worker.

(** The [location] map, in its iteration order. *)
Variable location : list string.
(** Outcome of the [n]-th call of [send_message] on the sink named [key]. *)
Variable net : nat -> string -> bool.
(** Whether the store's iterator yields [Ok] for the entry of a key. *)
Variable read_ok : string -> bool.
(** [self.mmsi] *)
Variable mmsi : Z.

(** [send_message(value, key, address)] *)
Definition send_message (key payload : string) (w : LWorld) : bool * LWorld :=
  let ok := net (nsend w) key in
  (ok, mkLWorld (persistence w) (S (nsend w)) (sent w ++ [(key, payload, ok)])).

(** [for (key, address) in self.location.iter_mut() { send_message(value, key, address)?; }] *)
Fixpoint send_all (sinks : list string) (value : string) (w : LWorld) : bool * LWorld :=
  match sinks with
  | [] => (true, w)
  | key :: rest =>
      let (ok, w1) := send_message key value w in
      if ok then send_all rest value w1 else (false, w1)
  end.

(** The [for item in self.persistence.iter()] loop of [resend_messages]. *)
Fixpoint resend_loop (items : list (string * string)) (w : LWorld) : bool * LWorld :=
  match items with
  | [] => (true, w)
  | (key, value) :: rest =>
      if read_ok key then
        let (ok, w1) := send_all location value w in
        if ok then
          resend_loop rest
            (set_persistence w1
               (Persistence.flush (Persistence.remove (persistence w1) key)))
        else (false, w1)
      else resend_loop rest w   (* Err(e): logged, entry skipped *)
  end.

(** [fn resend_messages(&mut self) -> io::Result<()>]; [true] is [Ok(())]. *)
Definition resend_messages (w : LWorld) : bool * LWorld :=
  if Nat.eqb (Persistence.count (persistence w)) 0 then (true, w)
  else resend_loop (Persistence.iter (persistence w)) w.

(** The sentence built by [parse_message]; [None] for unsupported types. *)
Definition nmea_message (message : ParsedMessage) (now : Utc) : option string :=
  match message with
  | VesselDynamicData_ m =>
      Some (Fmt.z_to_dec (vd_mmsi m) ++ "$GNRMC," ++ fmt_time now ++ ",A,"
            ++ format_lat_long (vd_latitude m) true ++ ","
            ++ format_lat_long (vd_longitude m) false ++ "," ++ "" ++ "," ++ "" ++ ","
            ++ fmt_date now ++ ",,,A" ++ crlf)
  | Rmc m =>
      let ts := match rmc_timestamp m with Some t => t | None => now end in
      Some (Fmt.z_to_dec mmsi ++ "$GNRMC," ++ fmt_time ts ++ ",A,"
            ++ format_lat_long (rmc_latitude m) true ++ ","
            ++ format_lat_long (rmc_longitude m) false ++ ","
            ++ format_option (rmc_sog_knots m) ++ "," ++ format_option (rmc_bearing m) ++ ","
            ++ fmt_date ts ++ ",,,A" ++ crlf)
  | _ => None
  end.

Definition store_flush (w : LWorld) (key value : string) : LWorld :=
  set_persistence w (Persistence.flush (Persistence.store (persistence w) key value)).

(** The [for (key, address) in self.location.iter_mut()] loop of [parse_message]. *)
Fixpoint deliver (sinks : list string) (now : Utc) (nmea : string) (connection_ok : bool)
    (w : LWorld) : LWorld :=
  match sinks with
  | [] => w
  | key :: rest =>
      let db_key := display_utc now ++ "-" ++ key in
      if negb connection_ok then deliver rest now nmea connection_ok (store_flush w db_key nmea)
      else
        let (ok, w1) := send_message key nmea w in
        if ok then deliver rest now nmea connection_ok w1
        else deliver rest now nmea connection_ok (store_flush w1 db_key nmea)
  end.

(** [fn parse_message(&mut self, message, connection_ok) -> io::Result<()>];
    [now] is [chrono::Utc::now()]. Every path ends in [Ok(())]. *)
Definition parse_message (message : ParsedMessage) (now : Utc) (connection_ok : bool)
    (w : LWorld) : bool * LWorld :=
  match nmea_message message now with
  | None => (true, w)
  | Some nmea => (true, deliver location now nmea connection_ok w)
  end.

(** One turn of the [loop] of [location_loop]: the new [connection_ok],
    and [None] when the loop returns (channel disconnected). *)
Definition location_step (connection_ok : bool) (ev : Recv) (w : LWorld)
    : option (bool * LWorld) :=
  match ev with
  | RecvOk message now =>
      let (c1, w1) := if negb connection_ok then resend_messages w else (connection_ok, w) in
      Some (parse_message message now c1 w1)
  | RecvTimeout => Some (resend_messages w)
  | RecvDisconnected => None
  end.

End Worker.
End Location.

(* ------------------------------------------------------------------ *)
(** ** [str::lines]: split at [\n], dropping a [\r] right before it *)

Fixpoint lines_aux (s : string) (cur : list ascii) : list string :=
  match s with
  | EmptyString =>
      match cur with [] => [] | _ => [string_of_list_ascii (rev cur)] end
  | String c rest =>
      if Ascii.eqb c (ascii_of_nat 10) then
        let cur' := match cur with
                    | c' :: t => if Ascii.eqb c' (ascii_of_nat 13) then t else cur
                    | [] => [] end in
        string_of_list_ascii (rev cur') :: lines_aux rest []
      else lines_aux rest (c :: cur)
  end.

Definition lines (s : string) : list string := lines_aux s [].

Fixpoint concat_str (l : list string) : string :=
  match l with [] => "" | s :: t => s ++ concat_str t end.

(* ------------------------------------------------------------------ *)
(** ** [main.rs]: the Dispatcher *)

Module Dispatcher.

(** [Instant]s are integers in nanoseconds. *)
Definition NANOS : Z := 1000000000.

(** [now.duration_since(earlier).as_secs()] (saturating at zero). *)
Definition secs_since (now earlier : Z) : Z := Z.max 0 (now - earlier) / NANOS.

(** [Duration::from_secs(n)] *)
Definition from_secs (n : Z) : Z := n * NANOS.

Record LastSent := mkLastSent { vessel_dynamic_data : Z; vessel_static_data : Z }.

Inductive Field := DynamicField | StaticField.

(** The environment and what the program emits: call counters of the
    parser, the clock and the AIS sends; the AIS send log; the messages
    sent over [location_tx]; and a log of the passes of [check_last_sent]
    (mmsi, field, instant, interval), the broadcasts it permits. *)
Record Env := mkEnv {
  nparse : nat; nclock : nat; nais : nat;
  ais_log : list (string * string * bool);
  location_tx : list ParsedMessage;
  accepted : list (Z * Field * Z * Z)
}.

(** The fields of [struct Dispatcher] that change. *)
Record Disp := mkDisp { last_sent : gmap Z LastSent; last_sent_location : Z }.

(** The local variables of [work]. *)
Record Locals := mkLocals {
  fragments : list string;
  allow_ais_for_location : bool;
  prev_lat : float; prev_long : float;
  next_location_instant_ : Z; next_location_anchor_instant_ : Z
}.

Record St := mkSt { env : Env; disp : Disp; locs : Locals }.

(** A state and error monad: [None] is an [io::Error] out of [work]. *)
Definition M (A : Type) : Type := St -> option A * St.
Definition ret {A} (a : A) : M A := fun s => (Some a, s).
Definition bind {A B} (m : M A) (k : A -> M B) : M B :=
  fun s => match m s with (Some a, s') => k a s' | (None, s') => (None, s') end.
Definition fail {A} : M A := fun s => (None, s).
Definition modify (f : St -> St) : M unit := fun s => (Some tt, f s).
Definition gets {A} (f : St -> A) : M A := fun s => (Some (f s), s).

Notation "x <- m ;; k" := (bind m (fun x => k)) (at level 100, m at next level, right associativity).
Notation "m ;;; k" := (bind m (fun _ => k)) (at level 100, right associativity).

Definition map_env (f : Env -> Env) (s : St) : St := mkSt (f (env s)) (disp s) (locs s).
Definition map_disp (f : Disp -> Disp) (s : St) : St := mkSt (env s) (f (disp s)) (locs s).
Definition map_locs (f : Locals -> Locals) (s : St) : St := mkSt (env s) (disp s) (f (locs s)).

Definition set_fragments (fr : list string) (l : Locals) : Locals :=
  mkLocals fr (allow_ais_for_location l) (prev_lat l) (prev_long l)
    (next_location_instant_ l) (next_location_anchor_instant_ l).
Definition set_allow (b : bool) (l : Locals) : Locals :=
  mkLocals (fragments l) b (prev_lat l) (prev_long l)
    (next_location_instant_ l) (next_location_anchor_instant_ l).
Definition set_prev (la lo : float) (l : Locals) : Locals :=
  mkLocals (fragments l) (allow_ais_for_location l) la lo
    (next_location_instant_ l) (next_location_anchor_instant_ l).
Definition set_deadlines (ni na : Z) (l : Locals) : Locals :=
  mkLocals (fragments l) (allow_ais_for_location l) (prev_lat l) (prev_long l) ni na.

Section Dispatcher.

(** Configuration of [main]: the [ais] section in iteration order and the
    three intervals (seconds); the same for every rebuild. *)
Variable ais : list string.
Variables interval location_interval location_anchor_interval : Z.
(** [nmea_parser.parse_sentence(line)] at its [n]-th call; [None] is [Err]. *)
Variable parse_sentence : nat -> string -> option ParsedMessage.
(** [Instant::now()] at its [n]-th call. *)
Variable clock : nat -> Z.
(** Outcome of the [n]-th AIS [send_message], on the sink named [key]. *)
Variable ais_net : nat -> string -> bool.

Definition now : M Z :=
  fun s => (Some (clock (nclock (env s))),
            map_env (fun e => mkEnv (nparse e) (S (nclock e)) (nais e) (ais_log e)
                                    (location_tx e) (accepted e)) s).

Definition parse (line : string) : M (option ParsedMessage) :=
  fun s => (Some (parse_sentence (nparse (env s)) line),
            map_env (fun e => mkEnv (S (nparse e)) (nclock e) (nais e) (ais_log e)
                                    (location_tx e) (accepted e)) s).

(** [send_message(nmea_message, key, address)] on an AIS sink. *)
Definition send_ais (key payload : string) : M bool :=
  fun s => let ok := ais_net (nais (env s)) key in
           (Some ok,
            map_env (fun e => mkEnv (nparse e) (nclock e) (S (nais e))
                                    (ais_log e ++ [(key, payload, ok)])
                                    (location_tx e) (accepted e)) s).

(** [self.location_tx.send(parsed_message)] *)
Definition send_location (m : ParsedMessage) : M unit :=
  modify (map_env (fun e => mkEnv (nparse e) (nclock e) (nais e) (ais_log e)
                                  (location_tx e ++ [m]) (accepted e))).

Definition log_accepted (a : Z * Field * Z * Z) : M unit :=
  modify (map_env (fun e => mkEnv (nparse e) (nclock e) (nais e) (ais_log e)
                                  (location_tx e) (accepted e ++ [a]))).

(** [fn next_location_instant(&self, now)] *)
Definition next_location_instant (last now : Z) : Z :=
  let elapsed := secs_since now last in
  let wait_period := if elapsed <? location_interval then location_interval - elapsed else 0 in
  now + from_secs wait_period.

(** [fn next_location_anchor_instant(&self, now)] *)
Definition next_location_anchor_instant (last now : Z) : Z :=
  let elapsed := secs_since now last in
  let wait_period :=
    if elapsed <? location_anchor_interval then location_anchor_interval - elapsed else 0 in
  now + from_secs wait_period.

(** The table update of [check_last_sent] once [now] is read: the lookup
    or seeding of the row ([entry().or_insert]) and the per-field test. *)
Definition check_field (tbl : gmap Z LastSent) (mmsi : Z) (own_vessel : bool) (f : Field)
    (now : Z) : bool * gmap Z LastSent * Z :=
  let iv := if own_vessel then location_interval else interval in
  let elapsed := now - from_secs iv in
  let row := match tbl !! mmsi with Some r => r | None => mkLastSent elapsed elapsed end in
  let last := match f with DynamicField => vessel_dynamic_data row
                         | StaticField => vessel_static_data row end in
  if iv <=? secs_since now last then
    let row' := match f with DynamicField => mkLastSent now (vessel_static_data row)
                           | StaticField => mkLastSent (vessel_dynamic_data row) now end in
    (true, <[mmsi := row']> tbl, iv)
  else (false, <[mmsi := row]> tbl, iv).

(** [fn check_last_sent(&mut self, message) -> bool] *)
Definition check_last_sent (message : ParsedMessage) : M bool :=
  let go mmsi own f :=
    t <- now ;;
    tbl <- gets (fun s => last_sent (disp s)) ;;
    let '(ok, tbl', iv) := check_field tbl mmsi own f t in
    modify (map_disp (fun d => mkDisp tbl' (last_sent_location d))) ;;;
    (if ok then log_accepted (mmsi, f, t, iv) else ret tt) ;;;
    ret ok in
  match message with
  | VesselDynamicData_ d => go (vd_mmsi d) (vd_own_vessel d) DynamicField
  | VesselStaticData_ d => go (vs_mmsi d) (vs_own_vessel d) StaticField
  | _ => ret false
  end.

(** [fn broadcast_ais(&mut self, message, nmea_message) -> io::Result<()>] *)
Fixpoint broadcast_ais (sinks : list string) (payload : string) : M unit :=
  match sinks with
  | [] => ret tt
  | key :: rest => ok <- send_ais key payload ;; if ok then broadcast_ais rest payload else fail
  end.

(** The classification [match &parsed_message] of [work]: [Some (own, lat, long)]
    for the location-relevant types, and the [allow_ais_for_location] latch
    of [Rmc]. *)
Definition classify (parsed_message : ParsedMessage)
    : M (option (bool * option float * option float)) :=
  match parsed_message with
  | VesselDynamicData_ d =>
      allow <- gets (fun s => allow_ais_for_location (locs s)) ;;
      ret (Some (allow && vd_own_vessel d, vd_latitude d, vd_longitude d))
  | VesselStaticData_ _ => ret (Some (false, None, None))
  | Rmc d =>
      modify (map_locs (set_allow false)) ;;;
      ret (Some (true, rmc_latitude d, rmc_longitude d))
  | _ => ret None
  end.

(** The location scheduling of [work] for an own-vessel message. *)
Definition schedule_location (parsed_message : ParsedMessage) (lat long : option float) : M unit :=
  t <- now ;;
  l <- gets locs ;;
  if (next_location_anchor_instant_ l <=? t)
     || ((next_location_instant_ l <=? t) && is_moving lat long (prev_lat l) (prev_long l))
  then
    modify (map_locs (set_prev (match lat with Some x => x | None => 0.0%float end)
                               (match long with Some x => x | None => 0.0%float end))) ;;;
    modify (map_disp (fun d => mkDisp (last_sent d) t)) ;;;
    send_location parsed_message ;;;
    modify (map_locs (set_deadlines (next_location_instant t t)
                                    (next_location_anchor_instant t t)))
  else ret tt.

(** The body of [for line in message.lines()] in [work]. *)
Definition process_line (line : string) : M unit :=
  r <- parse line ;;
  match r with
  | Some parsed_message =>
      match parsed_message with
      | Incomplete => modify (map_locs (fun l => set_fragments (fragments l ++ [line]) l))
      | _ =>
          c <- classify parsed_message ;;
          match c with
          | Some (own_vessel, lat, long) =>
              modify (map_locs (fun l => set_fragments (fragments l ++ [line]) l)) ;;;
              ok <- check_last_sent parsed_message ;;
              (if ok then
                 fr <- gets (fun s => fragments (locs s)) ;;
                 broadcast_ais ais (concat_str fr)
               else ret tt) ;;;
              (if own_vessel then schedule_location parsed_message lat long else ret tt) ;;;
              modify (map_locs (set_fragments []))
          | None => ret tt
          end
      end
  | None => modify (map_locs (set_fragments []))
  end.

Fixpoint process_lines (ls : list string) : M unit :=
  match ls with
  | [] => ret tt
  | line :: rest => process_line line ;;; process_lines rest
  end.

(** One turn of the [loop] of [work]: [read_from_provider] gave [Some message]
    or an error. *)
Definition work_event (ev : option string) : M unit :=
  match ev with
  | Some message => process_lines (lines message)
  | None => fail
  end.

Fixpoint work_events (evs : list (option string)) : M unit :=
  match evs with
  | [] => ret tt
  | ev :: rest => work_event ev ;;; work_events rest
  end.

(** [Dispatcher::new(...)] followed by the prologue of [work]. *)
Definition rebuild (e : Env) : St :=
  let t0 := clock (nclock e) in
  let t1 := clock (S (nclock e)) in
  let last := t0 - from_secs location_interval in
  mkSt (mkEnv (nparse e) (S (S (nclock e))) (nais e) (ais_log e) (location_tx e) (accepted e))
       (mkDisp ∅ last)
       (mkLocals [] true 0.0%float 0.0%float
                 (next_location_instant last t1) (next_location_anchor_instant last t1)).

(** The [loop] of [main]: a failing [work] is followed by a fresh Dispatcher. *)
Fixpoint main_run (evs : list (option string)) (s : St) : St :=
  match evs with
  | [] => s
  | ev :: rest =>
      match work_event ev s with
      | (Some _, s') => main_run rest s'
      | (None, s') => main_run rest (rebuild (env s'))
      end
  end.

Definition env0 : Env := mkEnv 0 0 0 [] [] [].

Definition main (evs : list (option string)) : St := main_run evs (rebuild env0).

End Dispatcher.
End Dispatcher.

(* ------------------------------------------------------------------ *)
(** ** [common/src/lib.rs]: protocols, endpoints and their I/O *)

Module Common.

(** The [io::ErrorKind]s the code creates or passes on. *)
Inductive ErrorKind :=
| InvalidInput | InvalidData | ConnectionRefused | ConnectionReset | AddrInUse
| WouldBlock | OtherError.

(** [io::Result<A>] *)
Inductive io_result (A : Type) := Ok (a : A) | Err (k : ErrorKind).
Arguments Ok {A} a.
Arguments Err {A} k.

Inductive Protocol := TCP | UDP | TCPListen | UDPListen.

(** [impl FromStr for Protocol] *)
Definition protocol_from_str (s : string) : io_result Protocol :=
  if String.eqb s "tcp" then Ok TCP
  else if String.eqb s "udp" then Ok UDP
  else if String.eqb s "tcp-listen" then Ok TCPListen
  else if String.eqb s "udp-listen" then Ok UDPListen
  else Err InvalidInput.

(** [impl Display for Protocol] (the [Debug] impl prints the same) *)
Definition protocol_fmt (p : Protocol) : string :=
  match p with
  | TCP => "tcp"
  | UDP => "udp"
  | TCPListen => "tcp-listen"
  | UDPListen => "udp-listen"
  end.

(** [s.split("://")]: the pieces between the leftmost non-overlapping
    occurrences of the separator, the last piece included; [acc] is the
    current piece, reversed. *)
Fixpoint split_go (s : string) (acc : list ascii) : list string :=
  match s with
  | EmptyString => [string_of_list_ascii (rev acc)]
  | String c rest =>
      match rest with
      | String c2 (String c3 rest') =>
          if Ascii.eqb c ":"%char && Ascii.eqb c2 "/"%char && Ascii.eqb c3 "/"%char
          then string_of_list_ascii (rev acc) :: split_go rest' []
          else split_go rest (c :: acc)
      | _ => split_go rest (c :: acc)
      end
  end.

Definition split_sep (s : string) : list string := split_go s [].

Section Endpoint.

(** [std::net::SocketAddr] with its [Display], and the resolver
    [to_socket_addrs] (its iterator as a list; [Err] when the text does not
    resolve). *)
Variable SocketAddr : Type.
Variable show_addr : SocketAddr -> string.
Variable to_socket_addrs : string -> io_result (list SocketAddr).

(** [pub struct NetworkEndpoint]; sockets and streams are OS handles. *)
Record NetworkEndpoint := mkEndpoint {
  protocol : Protocol;
  addr : SocketAddr;
  tcp_listener : option nat;
  tcp_stream : list nat;
  udp_socket : option nat
}.

Definition set_tcp_stream (e : NetworkEndpoint) (hs : list nat) : NetworkEndpoint :=
  mkEndpoint (protocol e) (addr e) (tcp_listener e) hs (udp_socket e).
Definition set_tcp_listener (e : NetworkEndpoint) (l : option nat) : NetworkEndpoint :=
  mkEndpoint (protocol e) (addr e) l (tcp_stream e) (udp_socket e).
Definition set_udp_socket (e : NetworkEndpoint) (u : option nat) : NetworkEndpoint :=
  mkEndpoint (protocol e) (addr e) (tcp_listener e) (tcp_stream e) u.

(** [impl FromStr for NetworkEndpoint] *)
Definition endpoint_from_str (s : string) : io_result NetworkEndpoint :=
  let parts := split_sep s in
  if negb (Nat.eqb (length parts) 2) then Err InvalidInput
  else
    match parts with
    | [p0; p1] =>
        match protocol_from_str p0 with
        | Err _ => Err InvalidInput
        | Ok protocol =>
            match to_socket_addrs p1 with
            | Err _ => Err InvalidInput
            | Ok addrs =>
                match addrs with
                | [] => Err InvalidInput   (* "No address found" *)
                | a :: _ => Ok (mkEndpoint protocol a None [] None)
                end
            end
        end
    | _ => Err InvalidInput   (* not reached: [parts.len() == 2] *)
    end.

(** [impl Display for NetworkEndpoint] (the [Debug] impl prints the same) *)
Definition endpoint_fmt (e : NetworkEndpoint) : string :=
  protocol_fmt (protocol e) ++ "://" ++ show_addr (addr e).

(** The system calls made on endpoints. *)
Inductive Syscall :=
| PeerAddr (h : nat)
| TcpConnect (a : SocketAddr)
| SetKeepalive (h : nat)
| TcpWrite (h : nat) (bytes : string)
| UdpBind
| UdpConnect (h : nat) (a : SocketAddr)
| UdpSend (h : nat) (bytes : string).

(** The outcome of the [n]-th system call: [None] is success. *)
Variable os : nat -> Syscall -> option ErrorKind.

(** The OS side: the number of calls made, and the bytes put on the wire
    per handle. *)
Record Os := mkOs { ncall : nat; wire : list (nat * string) }.

(** One system call: its outcome, the handle it creates (the index of the
    call) and the new OS state. A write that fails puts nothing on the
    wire in the model. *)
Definition syscall (c : Syscall) (o : Os) : option ErrorKind * nat * Os :=
  let r := os (ncall o) c in
  (r, ncall o,
   mkOs (S (ncall o))
     (match c, r with
      | TcpWrite h b, None | UdpSend h b, None => wire o ++ [(h, b)]
      | _, _ => wire o
      end)).

(** [tcp_stream.retain(|w| w.peer_addr().is_ok())] *)
Fixpoint retain_live (hs : list nat) (o : Os) : list nat * Os :=
  match hs with
  | [] => ([], o)
  | h :: t =>
      let '(r, _, o1) := syscall (PeerAddr h) o in
      let '(t', o2) := retain_live t o1 in
      (match r with None => h :: t' | Some _ => t' end, o2)
  end.

(** [fn send_message(nmea_message, key, address) -> io::Result<()>] of
    [main.rs]; [key] only enters the log and error texts. [send_message_tcp]
    is [write_all] followed by [flush], and [flush] of a [TcpStream] does
    nothing. *)
Definition send_message (nmea_message : string) (address : NetworkEndpoint) (o : Os)
    : io_result unit * NetworkEndpoint * Os :=
  match protocol address with
  | TCP =>
      let '(live, o1) := retain_live (tcp_stream address) o in
      let a1 := set_tcp_stream address live in
      let connected :=
        match live with
        | [] =>
            let '(r, h, o2) := syscall (TcpConnect (addr address)) o1 in
            match r with
            | Some _ => (Err ConnectionRefused, o2)
            | None =>
                let '(r2, _, o3) := syscall (SetKeepalive h) o2 in
                match r2 with
                | Some k => (Err k, o3)
                | None => (Ok (set_tcp_stream a1 [h]), o3)
                end
            end
        | _ => (Ok a1, o1)
        end in
      match connected with
      | (Err k, o2) => (Err k, a1, o2)
      | (Ok a2, o2) =>
          match tcp_stream a2 with
          | h :: _ =>
              let '(r, _, o3) := syscall (TcpWrite h nmea_message) o2 in
              match r with
              | Some _ => (Err ConnectionRefused, set_tcp_stream a2 [], o3)
              | None => (Ok tt, a2, o3)
              end
          | [] => (Ok tt, a2, o2)
          end
      end
  | UDP =>
      let bound :=
        match udp_socket address with
        | Some _ => (Ok address, o)
        | None =>
            let '(r, h, o1) := syscall UdpBind o in   (* bind("0.0.0.0:0") *)
            match r with
            | Some _ => (Err ConnectionRefused, o1)
            | None =>
                let '(r2, _, o2) := syscall (UdpConnect h (addr address)) o1 in
                match r2 with
                | Some k => (Err k, o2)
                | None => (Ok (set_udp_socket address (Some h)), o2)
                end
            end
        end in
      match bound with
      | (Err k, o1) => (Err k, address, o1)
      | (Ok a1, o1) =>
          match udp_socket a1 with
          | Some u =>
              let '(r, _, o2) := syscall (UdpSend u nmea_message) o1 in
              match r with
              | Some _ => (Err ConnectionRefused, a1, o2)
              | None => (Ok tt, a1, o2)
              end
          | None => (Ok tt, a1, o1)
          end
      end
  | TCPListen | UDPListen => (Ok tt, address, o)
  end.

End Endpoint.

Arguments mkEndpoint {SocketAddr} protocol addr tcp_listener tcp_stream udp_socket.
Arguments PeerAddr {SocketAddr} h.
Arguments TcpConnect {SocketAddr} a.
Arguments SetKeepalive {SocketAddr} h.
Arguments TcpWrite {SocketAddr} h bytes.
Arguments UdpBind {SocketAddr}.
Arguments UdpConnect {SocketAddr} h a.
Arguments UdpSend {SocketAddr} h bytes.
Arguments protocol {SocketAddr} n.
Arguments addr {SocketAddr} n.
Arguments tcp_listener {SocketAddr} n.
Arguments tcp_stream {SocketAddr} n.
Arguments udp_socket {SocketAddr} n.

End Common.

(* ------------------------------------------------------------------ *)
(** ** [location-receiver/src/main.rs]: the receiving end *)

Module Receiver.

(** [str::is_char_boundary] on the UTF-8 bytes of [s]. *)
Definition is_char_boundary (s : string) (i : nat) : bool :=
  Nat.eqb i 0 ||
  match String.get i s with
  | None => Nat.eqb i (String.length s)
  | Some c => Nat.ltb (nat_of_ascii c) 128 || Nat.leb 192 (nat_of_ascii c)
  end.

(** [&s[a..b]]: [None] is the panic on a bad range or a non-boundary index. *)
Definition slice (s : string) (a b : nat) : option string :=
  if Nat.leb a b && Nat.leb b (String.length s) && is_char_boundary s a && is_char_boundary s b
  then Some (substring a (b - a) s) else None.

(** [str::to_lowercase] on ASCII text: [A]..[Z] to [a]..[z]. *)
Definition ascii_lower (c : ascii) : ascii :=
  let n := nat_of_ascii c in
  if Nat.leb 65 n && Nat.leb n 90 then ascii_of_nat (n + 32) else c.

Definition to_lowercase (s : string) : string :=
  string_of_list_ascii (map ascii_lower (list_ascii_of_string s)).

(** [format!("{}", year)] for an [i32]. *)
Definition display_i32 (y : Z) : string :=
  if y <? 0 then "-" ++ Fmt.z_to_dec (- y) else Fmt.z_to_dec y.

(** [Path::join]: an absolute [name] replaces the base. *)
Definition path_join (base name : string) : string :=
  match String.get 0 name with
  | Some "/"%char => name
  | _ => base ++ "/" ++ name
  end.

(** What a call of [process_message] does: nothing (the error is logged),
    an append of [data] to the file at [path], or a panic. The file system
    is assumed to accept the open and the write: the panic of
    [open(..).expect(..)] on a path it refuses and the logged failure of
    [write_all] are not modelled. *)
Inductive Outcome :=
| Skipped
| Append (path data : string)
| Panic.

(** [fn process_message(message, db_path)]; [year] is [now.year()]. [split_at]
    cuts at a ['$'], an ASCII byte and so a char boundary. *)
Definition process_message (message : string) (db_path : string) (year : Z) : Outcome :=
  let i := match String.index 0 "$" message with Some i => i | None => O end in
  if Nat.eqb i 0 then Skipped
  else
    let id := substring 0 i message in
    let message := substring i (String.length message - i) message in
    match slice message 3 6 with
    | None => Panic
    | Some s =>
        let nmea_id := to_lowercase s in
        Append (path_join db_path (id ++ "_" ++ display_i32 year ++ "_" ++ nmea_id ++ ".db"))
               (message ++ crlf)
    end.

(** UTF-8 well-formedness, as [str::from_utf8] checks it. *)
Definition cont (c : ascii) : bool :=
  Nat.leb 128 (nat_of_ascii c) && Nat.ltb (nat_of_ascii c) 192.

Definition in_range (lo hi : nat) (c : ascii) : bool :=
  Nat.leb lo (nat_of_ascii c) && Nat.leb (nat_of_ascii c) hi.

Fixpoint utf8_valid (s : string) : bool :=
  match s with
  | EmptyString => true
  | String c r =>
      let n := nat_of_ascii c in
      if Nat.ltb n 128 then utf8_valid r
      else if in_range 194 223 c then
        match r with String c1 r1 => cont c1 && utf8_valid r1 | _ => false end
      else if in_range 224 239 c then
        match r with
        | String c1 (String c2 r2) =>
            (if Nat.eqb n 224 then in_range 160 191 c1
             else if Nat.eqb n 237 then in_range 128 159 c1
             else cont c1) && cont c2 && utf8_valid r2
        | _ => false
        end
      else if in_range 240 244 c then
        match r with
        | String c1 (String c2 (String c3 r3)) =>
            (if Nat.eqb n 240 then in_range 144 191 c1
             else if Nat.eqb n 244 then in_range 128 143 c1
             else cont c1) && cont c2 && cont c3 && utf8_valid r3
        | _ => false
        end
      else false
  end.

(** The bytes [read_line] takes: through the first ['\n'], or to the end. *)
Fixpoint read_line_split (s : string) : string * string :=
  match s with
  | EmptyString => (EmptyString, EmptyString)
  | String c r =>
      if Ascii.eqb c (ascii_of_nat 10) then (String c EmptyString, r)
      else let (l, rest) := read_line_split r in (String c l, rest)
  end.

Section Connection.

(** [now.year()] at the [k]-th call of [process_message]. *)
Variable year : nat -> Z.

(** [for line in buffer.lines() { if !line.is_empty() { process_message(..) } }];
    a panic ends the thread. Returns the outcomes, the next call index and
    whether the thread panicked. *)
Fixpoint process_buffer (ls : list string) (k : nat) : list Outcome * nat * bool :=
  match ls with
  | [] => ([], k, false)
  | line :: rest =>
      if String.eqb line "" then process_buffer rest k
      else
        match process_message line "/var/db" (year k) with
        | Panic => ([Panic], S k, true)
        | o => let '(os, k', p) := process_buffer rest (S k) in (o :: os, k', p)
        end
  end.

(** The [loop] of a connection thread over the bytes [input] the peer sends
    before it closes: [Ok(0)] at the end, [Err] (invalid UTF-8) ends it too.
    Each turn consumes at least one byte, so [String.length input] turns
    suffice. *)
Fixpoint connection_loop (fuel : nat) (input : string) (k : nat) : list Outcome :=
  match fuel with
  | O => []
  | S fuel =>
      match input with
      | EmptyString => []   (* Ok(0): connection closed *)
      | _ =>
          let (buffer, rest) := read_line_split input in
          if utf8_valid buffer then
            let '(os, k', panicked) := process_buffer (lines buffer) k in
            if panicked then os else os ++ connection_loop fuel rest k'
          else []   (* Err(e): logged, loop left *)
      end
  end.

Definition connection (input : string) : list Outcome :=
  connection_loop (String.length input) input 0.

End Connection.
End Receiver.

(* ================================================================== *)
(** * Properties *)

Open Scope list_scope.

(* ------------------------------------------------------------------ *)
(** ** The resend cycle *)

Module ResendFacts.
Import Location Persistence.

(** [db] contents with the entries of the keys [ks] deleted. *)
Definition filter_keys (ks : list string) (l : list (string * string)) : list (string * string) :=
  List.filter (fun kv => negb (existsb (String.eqb (fst kv)) ks)) l.

Definition ok_send (v : string) (s : string) : string * string * bool := (s, v, true).

Section Resend.
Variable location : list string.
Variable net : nat -> string -> bool.
Variable read_ok : string -> bool.

(** [v] reached every Location sink according to the log [tr]. *)
Definition delivered (v : string) (tr : list (string * string * bool)) : Prop :=
  forall s, In s location -> In (s, v, true) tr.

Lemma filter_keys_nil (l : list (string * string)) : filter_keys [] l = l.
Proof. unfold filter_keys. induction l as [|[k v] l IH]; simpl; [done | f_equal; exact IH]. Qed.

Lemma filter_keys_cons (k : string) (ks : list string) (l : list (string * string)) :
  filter_keys (k :: ks) l = filter_keys ks (kv_remove k l).
Proof.
  unfold filter_keys, kv_remove.
  induction l as [|[k' v'] l IH]; simpl; [done|].
  rewrite (String.eqb_sym k' k).
  destruct (String.eqb k k'); simpl.
  - exact IH.
  - destruct (existsb (String.eqb k') ks); simpl; [exact IH | f_equal; exact IH].
Qed.

Lemma In_filter_keys (ks : list string) (l : list (string * string)) (k v : string) :
  In (k, v) (filter_keys ks l) <-> In (k, v) l /\ ~ In k ks.
Proof.
  unfold filter_keys. rewrite filter_In. simpl.
  split.
  - intros [Hin Hn]. split; [done|]. intros Hk.
    assert (existsb (String.eqb k) ks = true) as E.
    { apply existsb_exists. exists k. split; [done|]. apply String.eqb_refl. }
    rewrite E in Hn. discriminate.
  - intros [Hin Hn]. split; [done|].
    destruct (existsb (String.eqb k) ks) eqn:E; [|done].
    apply existsb_exists in E as [k' [Hk' Heq]]. apply String.eqb_eq in Heq. subst k'.
    contradiction.
Qed.

Lemma send_all_spec (sinks : list string) (v : string) (w w' : LWorld) (ok : bool) :
  send_all net sinks v w = (ok, w') ->
  persistence w' = persistence w /\
  ((ok = true /\ sent w' = sent w ++ map (ok_send v) sinks) \/
   (ok = false /\ exists pre s post, sinks = pre ++ s :: post /\
      sent w' = sent w ++ map (ok_send v) pre ++ [(s, v, false)])).
Proof.
  revert w. induction sinks as [|key rest IH]; intros w H; simpl in H.
  - inversion H; subst. split; [done|]. left. split; [done|]. by rewrite app_nil_r.
  - unfold send_message in H. destruct (net (nsend w) key) eqn:Hn.
    + apply IH in H as [Hp [[-> Hs] | [-> [pre [s [post [Hsk Hs]]]]]]]; simpl in *.
      * split; [done|]. left. split; [done|]. rewrite Hs. by rewrite <- app_assoc.
      * split; [done|]. right. split; [done|].
        exists (key :: pre), s, post. split; [by rewrite Hsk|].
        rewrite Hs. simpl. by rewrite <- app_assoc.
    + inversion H; subst. simpl. split; [done|]. right. split; [done|].
      exists [], key, rest. split; [done|]. done.
Qed.

Lemma delivered_app_l (v : string) (tr1 tr2 : list (string * string * bool)) :
  delivered v tr1 -> delivered v (tr1 ++ tr2).
Proof. intros H s Hs. apply in_or_app. left. by apply H. Qed.

Lemma delivered_app_r (v : string) (tr1 tr2 : list (string * string * bool)) :
  delivered v tr2 -> delivered v (tr1 ++ tr2).
Proof. intros H s Hs. apply in_or_app. right. by apply H. Qed.

Lemma delivered_map (v : string) : delivered v (map (ok_send v) location).
Proof. intros s Hs. apply in_map_iff. by exists s. Qed.

Definition readable_keys (items : list (string * string)) : list string :=
  map fst (List.filter (fun kv => read_ok (fst kv)) items).

(** The loop over a snapshot [items] of the store stops at the first entry
    whose broadcast fails; every readable entry before it was delivered to
    every sink and deleted, nothing else was deleted. *)
Lemma resend_loop_spec (items : list (string * string)) (w w' : LWorld) (b : bool) :
  resend_loop location net read_ok items w = (b, w') ->
  exists done rest tr,
    items = done ++ rest /\
    sent w' = sent w ++ tr /\
    db (persistence w') = filter_keys (readable_keys done) (db (persistence w)) /\
    (forall k v, In (k, v) done -> read_ok k = true -> delivered v tr) /\
    (b = true -> rest = []) /\
    (b = false -> exists k v rest', rest = (k, v) :: rest' /\ read_ok k = true /\
       exists tr0 pre s post, location = pre ++ s :: post /\
         tr = tr0 ++ map (ok_send v) pre ++ [(s, v, false)]).
Proof.
  revert w. induction items as [|[k v] items IH]; intros w H; simpl in H.
  - inversion H; subst. exists [], [], []. change (readable_keys []) with (@nil string).
    rewrite !app_nil_r, filter_keys_nil.
    split; [done|]. split; [done|]. split; [done|]. split; [intros ? ? []|].
    split; [done|]. discriminate.
  - destruct (read_ok k) eqn:Hr.
    + destruct (send_all net location v w) as [ok w1] eqn:Hs.
      apply send_all_spec in Hs as [Hp1 Hsent].
      destruct ok.
      * destruct Hsent as [[_ Hs1] | [Hf _]]; [|discriminate].
        apply IH in H as [done [rest [tr [Hit [Hs' [Hdb [Hdel [Ht Hf]]]]]]]].
        exists ((k, v) :: done), rest, (map (ok_send v) location ++ tr).
        simpl in Hs', Hdb. split; [by rewrite Hit|]. split.
        { rewrite Hs', Hs1. by rewrite app_assoc. }
        split.
        { rewrite Hdb. unfold readable_keys. simpl. rewrite Hr. simpl.
          rewrite filter_keys_cons. unfold Persistence.remove. simpl. by rewrite Hp1. }
        split.
        { intros k' v' [Heq | Hin] Hr'.
          - inversion Heq; subst. apply delivered_app_l, delivered_map.
          - apply delivered_app_r. by apply (Hdel k' v'). }
        split; [done|].
        intros Hb. destruct (Hf Hb) as [k1 [v1 [rest' [Hrest [Hr1 [tr0 [pre [s [post [Hl Htr]]]]]]]]]].
        exists k1, v1, rest'. repeat split; try done.
        exists (map (ok_send v) location ++ tr0), pre, s, post. split; [done|].
        rewrite Htr. by rewrite <- app_assoc.
      * destruct Hsent as [[Hf _] | [_ [pre [s [post [Hl Hs1]]]]]]; [discriminate|].
        inversion H; subst.
        exists [], ((k, v) :: items), (map (ok_send v) pre ++ [(s, v, false)]).
        split; [done|]. split; [done|]. split.
        { rewrite Hp1. change (readable_keys []) with (@nil string). by rewrite filter_keys_nil. }
        split; [intros ? ? []|]. split; [discriminate|].
        intros _. exists k, v, items. repeat split; try done.
        exists [], pre, s, post. by split.
    + apply IH in H as [done [rest [tr [Hit [Hs' [Hdb [Hdel [Ht Hf]]]]]]]].
      exists ((k, v) :: done), rest, tr.
      split; [by rewrite Hit|]. split; [done|]. split.
      { rewrite Hdb. unfold readable_keys. simpl. by rewrite Hr. }
      split; [|done].
      intros k' v' [Heq | Hin] Hr'.
      * inversion Heq; subst. rewrite Hr in Hr'. discriminate.
      * by apply (Hdel k' v').
Qed.

Lemma readable_keys_incl (l : list (string * string)) (k : string) :
  In k (readable_keys l) -> In k (map fst l).
Proof.
  unfold readable_keys. rewrite !in_map_iff. intros [[k' v'] [Hk Hin]].
  apply filter_In in Hin as [Hin _]. by exists (k', v').
Qed.

Lemma readable_keys_app (l1 l2 : list (string * string)) :
  readable_keys (l1 ++ l2) = readable_keys l1 ++ readable_keys l2.
Proof. unfold readable_keys. by rewrite List.filter_app, map_app. Qed.

(** The loop as [resend_messages] runs it, over the whole store. *)
Lemma resend_messages_spec (w w' : LWorld) (b : bool) :
  wf (persistence w) ->
  resend_messages location net read_ok w = (b, w') ->
  exists done rest tr,
    db (persistence w) = done ++ rest /\
    sent w' = sent w ++ tr /\
    db (persistence w') = filter_keys (readable_keys done) (db (persistence w)) /\
    (forall k v, In (k, v) done -> read_ok k = true -> delivered v tr) /\
    (b = true -> rest = []) /\
    (b = false -> exists k v rest', rest = (k, v) :: rest' /\ read_ok k = true /\
       exists tr0 pre s post, location = pre ++ s :: post /\
         tr = tr0 ++ map (ok_send v) pre ++ [(s, v, false)]).
Proof.
  intros [_ Hc] H. unfold resend_messages in H.
  destruct (Nat.eqb (count (persistence w)) 0) eqn:Hz.
  - injection H as <- <-. apply Nat.eqb_eq in Hz. rewrite Hz in Hc.
    destruct (db (persistence w)) as [|x l] eqn:Hdb; [|discriminate].
    exists [], [], []. rewrite !app_nil_r. change (readable_keys []) with (@nil string).
    rewrite filter_keys_nil.
    split; [done|]. split; [done|]. split; [done|]. split; [intros ? ? []|].
    split; [done|]. discriminate.
  - exact (resend_loop_spec _ _ _ _ H).
Qed.

End Resend.

Lemma nodup_fst_unique (l : list (string * string)) (k v v' : string) :
  List.NoDup (map fst l) -> In (k, v) l -> In (k, v') l -> v = v'.
Proof.
  induction l as [|[k1 v1] l IH]; simpl; [tauto|].
  intros Hnd H1 H2. inversion Hnd as [|? ? Hnin Hnd']; subst.
  destruct H1 as [E1 | H1]; destruct H2 as [E2 | H2].
  - inversion E1; inversion E2; by subst.
  - inversion E1; subst. exfalso. apply Hnin. apply in_map_iff. by exists (k, v').
  - inversion E2; subst. exfalso. apply Hnin. apply in_map_iff. by exists (k, v).
  - by apply IH.
Qed.

Lemma nodup_app_notin (l1 l2 : list string) (x : string) :
  List.NoDup (l1 ++ x :: l2) -> ~ In x l1 /\ (forall y, In y l2 -> ~ In y l1).
Proof.
  induction l1 as [|a l1 IH]; simpl; intros Hnd; [split; [tauto | intros; tauto]|].
  inversion Hnd as [|? ? Hnin Hnd']; subst.
  destruct (IH Hnd') as [H1 H2]. split.
  - intros [-> | Hin]; [|tauto]. apply Hnin. apply in_or_app. right. by left.
  - intros y Hy [-> | Hin]; [|by apply (H2 y)].
    apply Hnin. apply in_or_app. right. by right.
Qed.

(** A key is gone after a resend cycle only if that cycle delivered its
    value to every Location sink. *)
Lemma resend_removed_delivered (location : list string) (net : nat -> string -> bool)
    (read_ok : string -> bool) (w w' : LWorld) (b : bool) :
  wf (persistence w) ->
  resend_messages location net read_ok w = (b, w') ->
  exists tr, sent w' = sent w ++ tr /\
    forall k v, In (k, v) (db (persistence w)) ->
      ~ In k (map fst (db (persistence w'))) -> delivered location v tr.
Proof.
  intros Hwf H. pose proof Hwf as [Hnd _].
  destruct (resend_messages_spec location net read_ok w w' b Hwf H)
    as [done [rest [tr [Hit [Hs [Hdb [Hdel _]]]]]]].
  exists tr. split; [done|]. intros k v Hin Hgone.
  destruct (in_dec string_dec k (readable_keys read_ok done)) as [Hk | Hk].
  - unfold readable_keys in Hk. apply in_map_iff in Hk as [[k' v'] [Hk' Hin']]. simpl in Hk'. subst k'.
    apply filter_In in Hin' as [Hin' Hr].
    assert (v' = v) as ->.
    { apply (nodup_fst_unique (db (persistence w)) k); [done| |done].
      rewrite Hit. apply in_or_app. by left. }
    by apply (Hdel k v).
  - exfalso. apply Hgone. rewrite Hdb. apply in_map_iff. exists (k, v).
    split; [done|]. by apply In_filter_keys.
Qed.

Lemma not_in_filter_keys (ks : list string) (l : list (string * string)) (k : string) :
  In k ks -> ~ In k (map fst (filter_keys ks l)).
Proof.
  intros Hk Hin. apply in_map_iff in Hin as [[k' v'] [Hk' Hin]]. simpl in Hk'. subst k'.
  apply In_filter_keys in Hin as [_ Hn]. contradiction.
Qed.

Lemma in_readable_keys (read_ok : string -> bool) (l : list (string * string)) (k v : string) :
  In (k, v) l -> read_ok k = true -> In k (readable_keys read_ok l).
Proof.
  intros Hin Hr. unfold readable_keys. apply in_map_iff. exists (k, v).
  split; [done|]. apply filter_In. by split.
Qed.

Lemma readable_keys_read_ok (read_ok : string -> bool) (l : list (string * string)) (k : string) :
  In k (readable_keys read_ok l) -> read_ok k = true.
Proof.
  unfold readable_keys. intros Hin. apply in_map_iff in Hin as [[k' v'] [Hk Hin]].
  simpl in Hk. subst k'. apply filter_In in Hin as [_ Hr]. exact Hr.
Qed.

(** Concrete stores used by the examples. *)
Definition one_entry : Persistence.Persistence := mkPersistence [("k", "v")] 1.
Definition w_one : LWorld := mkLWorld one_entry 0 [].

Lemma w_one_wf : wf (persistence w_one).
Proof. split; [|reflexivity]. simpl. constructor; [simpl; tauto | constructor]. Qed.

End ResendFacts.

(* ================================================================== *)
(** * The claims *)

Module ResendClaims.
Import Location Persistence ResendFacts.

(** C1 (as amended). In a resend cycle over a well-formed store (one
    entry per key, count equal to the number of entries), a key that is
    gone afterwards had its value sent with success to every Location
    sink during the cycle. If the cycle returns [Ok], every entry that
    the store's iterator read without error is gone and its value was
    sent to every sink. An entry whose read fails is logged and skipped,
    so it is still stored. *)
Theorem resend_messages_prunes_after_full_broadcast
    (location : list string) (net : nat -> string -> bool) (read_ok : string -> bool)
    (w w' : LWorld) (b : bool) :
  wf (persistence w) ->
  resend_messages location net read_ok w = (b, w') ->
  exists tr, sent w' = sent w ++ tr /\
    (forall k v, In (k, v) (db (persistence w)) ->
       ~ In k (map fst (db (persistence w'))) -> delivered location v tr) /\
    (b = true -> forall k v, In (k, v) (db (persistence w)) ->
       (read_ok k = true ->
          ~ In k (map fst (db (persistence w'))) /\ delivered location v tr) /\
       (read_ok k = false -> In (k, v) (db (persistence w')))).
Proof.
  intros Hwf H.
  destruct (resend_removed_delivered location net read_ok w w' b Hwf H) as [tr1 [Hs1 Hrem]].
  destruct (resend_messages_spec location net read_ok w w' b Hwf H)
    as [done [rest [tr [Hit [Hs [Hdb [Hdel [Ht _]]]]]]]].
  assert (tr1 = tr) as <-.
  { rewrite Hs in Hs1. by apply app_inv_head in Hs1. }
  exists tr1. split; [done|]. split; [exact Hrem|].
  intros Hb k v Hin. pose proof (Ht Hb) as ->. rewrite app_nil_r in Hit.
  split.
  - intros Hr. split.
    + rewrite Hdb. apply not_in_filter_keys. rewrite <- Hit. by apply (in_readable_keys _ _ k v).
    + apply (Hdel k v); [by rewrite <- Hit | done].
  - intros Hr. rewrite Hdb. apply In_filter_keys. split; [done|].
    intros Hk. apply readable_keys_read_ok in Hk. congruence.
Qed.

Lemma resend_messages_prunes_after_full_broadcast_witness :
  exists tr, sent (snd (resend_messages ["s1"] (fun _ _ => true) (fun _ => true) w_one))
             = sent w_one ++ tr /\
    (forall k v, In (k, v) (db (persistence w_one)) ->
       ~ In k (map fst (db (persistence
            (snd (resend_messages ["s1"] (fun _ _ => true) (fun _ => true) w_one))))) ->
       delivered ["s1"] v tr) /\
    (true = true -> forall k v, In (k, v) (db (persistence w_one)) ->
       (true = true ->
          ~ In k (map fst (db (persistence
               (snd (resend_messages ["s1"] (fun _ _ => true) (fun _ => true) w_one))))) /\
          delivered ["s1"] v tr) /\
       (true = false -> In (k, v) (db (persistence
            (snd (resend_messages ["s1"] (fun _ _ => true) (fun _ => true) w_one)))))).
Proof.
  apply (resend_messages_prunes_after_full_broadcast ["s1"] (fun _ _ => true) (fun _ => true)
           w_one _ true).
  - exact w_one_wf.
  - vm_compute. reflexivity.
Defined.

(** C1 counterexample: the cycle returns [Ok] although the only stored key,
    whose entry the iterator fails to read, is still stored afterwards. *)
Lemma resend_messages_keeps_unreadable_entry :
  resend_messages ["s1"] (fun _ _ => true) (fun _ => false) w_one = (true, w_one) /\
  In "k"%string (map fst (db (persistence w_one))) /\
  wf (persistence w_one).
Proof. split; [vm_compute; reflexivity|]. split; [simpl; tauto | exact w_one_wf]. Qed.

(** C2 (as amended). When a sink fails during a resend cycle, the error
    propagates at once. The entry being sent keeps its key, as does every
    later entry. Its value already went to the sinks before the failing
    one in the iteration. Every readable entry handled earlier in the
    cycle was sent to every sink and removed. *)
Theorem resend_messages_error_keeps_entry
    (location : list string) (net : nat -> string -> bool) (read_ok : string -> bool)
    (w w' : LWorld) :
  wf (persistence w) ->
  resend_messages location net read_ok w = (false, w') ->
  exists done k v rest tr tr0 pre s post,
    db (persistence w) = done ++ (k, v) :: rest /\
    location = pre ++ s :: post /\
    sent w' = sent w ++ tr /\
    tr = tr0 ++ map (ok_send v) pre ++ [(s, v, false)] /\
    In (k, v) (db (persistence w')) /\
    (forall kv, In kv rest -> In kv (db (persistence w'))) /\
    (forall k' v', In (k', v') done -> read_ok k' = true ->
       ~ In k' (map fst (db (persistence w'))) /\ delivered location v' tr).
Proof.
  intros Hwf H. pose proof Hwf as [Hnd _].
  destruct (resend_messages_spec location net read_ok w w' false Hwf H)
    as [done [rest [tr [Hit [Hs [Hdb [Hdel [_ Hf]]]]]]]].
  destruct (Hf eq_refl) as [k [v [rest' [-> [Hr [tr0 [pre [s [post [Hl Htr]]]]]]]]]].
  rewrite Hit, map_app in Hnd. simpl in Hnd.
  destruct (nodup_app_notin _ _ _ Hnd) as [Hk Hrest].
  exists done, k, v, rest', tr, tr0, pre, s, post.
  split; [done|]. split; [done|]. split; [done|]. split; [done|]. split.
  { rewrite Hdb. apply In_filter_keys. split.
    - rewrite Hit. apply in_or_app. right. by left.
    - intros Hin. apply Hk. by apply (readable_keys_incl read_ok). }
  split.
  { intros [k1 v1] Hin. rewrite Hdb. apply In_filter_keys. split.
    - rewrite Hit. apply in_or_app. right. by right.
    - intros Hin'. apply (Hrest k1).
      + apply in_map_iff. by exists (k1, v1).
      + by apply (readable_keys_incl read_ok). }
  intros k' v' Hin Hr'. split.
  - rewrite Hdb. apply not_in_filter_keys. by apply (in_readable_keys _ _ k' v').
  - by apply (Hdel k' v').
Qed.

Definition net_s2_down (n : nat) (key : string) : bool := String.eqb key "s1".

Lemma resend_messages_error_keeps_entry_witness :
  exists done k v rest tr tr0 pre s post,
    db (persistence w_one) = done ++ (k, v) :: rest /\
    ["s1"; "s2"] = pre ++ s :: post /\
    sent (snd (resend_messages ["s1"; "s2"] net_s2_down (fun _ => true) w_one))
      = sent w_one ++ tr /\
    tr = tr0 ++ map (ok_send v) pre ++ [(s, v, false)] /\
    In (k, v) (db (persistence
      (snd (resend_messages ["s1"; "s2"] net_s2_down (fun _ => true) w_one)))) /\
    (forall kv, In kv rest -> In kv (db (persistence
      (snd (resend_messages ["s1"; "s2"] net_s2_down (fun _ => true) w_one))))) /\
    (forall k' v', In (k', v') done -> (fun _ => true) k' = true ->
       ~ In k' (map fst (db (persistence
          (snd (resend_messages ["s1"; "s2"] net_s2_down (fun _ => true) w_one))))) /\
       delivered ["s1"; "s2"] v' tr).
Proof.
  apply (resend_messages_error_keeps_entry ["s1"; "s2"] net_s2_down (fun _ => true) w_one).
  - exact w_one_wf.
  - vm_compute. reflexivity.
Defined.

(** C2 counterexample: no run of the resend cycle on a well-formed store
    removes a key whose value some Location sink did not receive with
    success in that cycle. *)
Lemma resend_messages_never_drops_partial_broadcast :
  ~ exists (location : list string) (net : nat -> string -> bool) (read_ok : string -> bool)
      (w w' : LWorld) (b : bool) (k v : string) (tr : list (string * string * bool)) (s : string),
      wf (persistence w) /\
      resend_messages location net read_ok w = (b, w') /\
      sent w' = sent w ++ tr /\
      In (k, v) (db (persistence w)) /\
      ~ In k (map fst (db (persistence w'))) /\
      In s location /\ ~ In (s, v, true) tr.
Proof.
  intros (location & net & read_ok & w & w' & b & k & v & tr & s & Hwf & H & Hs & Hin & Hgone & Hs1 & Hn).
  destruct (resend_removed_delivered location net read_ok w w' b Hwf H) as [tr' [Hs' Hrem]].
  rewrite Hs in Hs'. apply app_inv_head in Hs' as <-.
  apply Hn. by apply (Hrem k v).
Qed.

End ResendClaims.

(* ------------------------------------------------------------------ *)
(** ** Handling a received message in the Location worker *)

Module WorkerClaims.
Import Location Persistence.

(** [parse_message] ends in [Ok(())] on every path, send failures included. *)
Lemma parse_message_always_ok (location : list string) (net : nat -> string -> bool)
    (mmsi : Z) (m : ParsedMessage) (now : Utc) (c : bool) (w : LWorld) :
  fst (parse_message location net mmsi m now c w) = true.
Proof. unfold parse_message. by destruct (nmea_message mmsi m now). Qed.

(** Hence [connection_ok] is [true] after every received message. *)
Lemma location_step_recv_sets_flag (location : list string) (net : nat -> string -> bool)
    (read_ok : string -> bool) (mmsi : Z) (c : bool) (m : ParsedMessage) (now : Utc)
    (w : LWorld) :
  exists w', location_step location net read_ok mmsi c (RecvOk m now) w = Some (true, w').
Proof.
  unfold location_step.
  destruct (if negb c then resend_messages location net read_ok w else (c, w)) as [c1 w1].
  exists (snd (parse_message location net mmsi m now c1 w1)).
  pose proof (parse_message_always_ok location net mmsi m now c1 w1) as H.
  destruct (parse_message location net mmsi m now c1 w1) as [r w2]. simpl in *. by subst r.
Qed.

Definition own_position : ParsedMessage :=
  VesselDynamicData_ (mkVDD 244000000 true (Some 53.17%float) (Some 5.42%float)).
Definition now_ex : Utc := mkUtc 2025 1 2 3 4 5 0.
Definition sentence_ex : string :=
  ("244000000$GNRMC,030405,A,5310.20000,N,525.20000,E,,,020125,,,A" ++ crlf)%string.
Definition empty_world : LWorld := mkLWorld (mkPersistence [] 0) 0 [].

(** C3 at its failing input: one Location sink [s1] whose send fails, the
    worker's flag [connection_ok] true, an own-vessel position received.
    The sentence is stored under ["{now}-s1"], but the flag after the
    message is [true], not [false]. *)
Theorem location_step_failed_send_flag_stays_true :
  location_step ["s1"] (fun _ _ => false) (fun _ => true) 244000000 true
    (RecvOk own_position now_ex) empty_world
  = Some (true, mkLWorld
                  (mkPersistence [((display_utc now_ex ++ "-s1")%string, sentence_ex)] 1)
                  1 [("s1", sentence_ex, false)]).
Proof. vm_compute. reflexivity. Qed.

End WorkerClaims.

(* ------------------------------------------------------------------ *)
(** ** Position formatting and the motion gate *)

Module FormatClaims.

(** C9 counterexample: an absent coordinate formats as a bare comma, not
    as the empty string. *)
Lemma format_lat_long_absent_is_comma :
  format_lat_long None true = ","%string /\ format_lat_long None true <> ""%string.
Proof. split; [reflexivity | discriminate]. Qed.

(** C9 (as amended). [format_lat_long] yields [","] for an absent value.
    A present value v gives [{D*100+M:.5},{hemi}], where D is the
    truncated |v| and M = (|v| - D) * 60 in f64 arithmetic. The
    hemisphere is N/S for latitude and E/W for longitude, by [v >= 0.0].
    For example 53.17 gives ["5310.20000,N"] and -5.42 gives
    ["525.20000,W"]. [is_moving] is false when either coordinate is
    absent. *)
Theorem format_lat_long_shape :
  (forall is_lat, format_lat_long None is_lat = ","%string) /\
  (forall v is_lat,
     format_lat_long (Some v) is_lat =
       (Fmt.fmt_fixed 5
          (PrimFloat.add (PrimFloat.mul (f64_trunc (PrimFloat.abs v)) 100.0%float)
             (PrimFloat.mul (PrimFloat.sub (PrimFloat.abs v) (f64_trunc (PrimFloat.abs v)))
                60.0%float))
        ++ "," ++
        (if is_lat then (if f64_ge v 0.0%float then "N" else "S")
         else (if f64_ge v 0.0%float then "E" else "W")))%string) /\
  format_lat_long (Some 53.17%float) true = "5310.20000,N"%string /\
  format_lat_long (Some (-5.42)%float) false = "525.20000,W"%string /\
  (forall long prev_lat prev_long, is_moving None long prev_lat prev_long = false) /\
  (forall lat prev_lat prev_long, is_moving lat None prev_lat prev_long = false).
Proof.
  split; [done|]. split; [done|].
  split; [vm_compute; reflexivity|]. split; [vm_compute; reflexivity|].
  split; [done|]. intros [lat|] prev_lat prev_long; done.
Qed.

End FormatClaims.

(* ------------------------------------------------------------------ *)
(** ** Dispatcher: the building blocks of [process_line] *)

Module DispatcherFacts.
Import Dispatcher.

Section Facts.
Variable ais : list string.
Variables interval location_interval location_anchor_interval : Z.
Variable parse_sentence : nat -> string -> option ParsedMessage.
Variable clock : nat -> Z.
Variable ais_net : nat -> string -> bool.

Definition payload_of (e : string * string * bool) : string := snd (fst e).
Definition sink_of (e : string * string * bool) : string := fst (fst e).

(** [broadcast_ais] only appends to the AIS log and advances the send
    counter: every entry carries the same payload, and it reaches every sink
    in order unless one fails. *)
Lemma broadcast_ais_spec (sinks : list string) (payload : string) (s s' : St) (r : option unit) :
  broadcast_ais ais_net sinks payload s = (r, s') ->
  exists k tr,
    s' = map_env (fun e => mkEnv (nparse e) (nclock e) (nais e + k) (ais_log e ++ tr)
                                 (location_tx e) (accepted e)) s /\
    (forall e, In e tr -> payload_of e = payload) /\
    (r = Some tt -> map sink_of tr = sinks).
Proof.
  revert s. induction sinks as [|key rest IH]; intros s H.
  - cbn in H. injection H as <- <-. exists 0%nat, [].
    split_and!; [| intros e [] | done].
    destruct s as [[] d l]; cbn. unfold map_env; cbn. by rewrite Nat.add_0_r, app_nil_r.
  - cbn in H. destruct (ais_net (nais (env s)) key) eqn:Hn.
    + apply IH in H as (k & tr & -> & Hpay & Hall).
      exists (S k), ((key, payload, true) :: tr). split_and!.
      * destruct s as [[] d l]; unfold map_env; cbn. by rewrite Nat.add_succ_r, <- app_assoc.
      * intros e [<- | Hin]; [done | by apply Hpay].
      * intros Hr. cbn. by rewrite Hall.
    + injection H as <- <-. exists 1%nat, [(key, payload, false)]. split_and!.
      * destruct s as [[] d l]; unfold map_env; cbn. by rewrite Nat.add_1_r.
      * by intros e [<- | []].
      * discriminate.
Qed.

End Facts.

(** Symbolic evaluation of [process_line]: after the parse result is
    rewritten, split on the rate-limit decision, the outcome of the AIS
    broadcast and each remaining condition. *)
Ltac pl_split H :=
  match type of H with
  | context [check_field ?i ?li ?t ?m ?o ?f ?n] =>
      let Hc := fresh "Hc" in destruct (check_field i li t m o f n) as [[?ok ?tbl'] ?iv] eqn:Hc
  | context [broadcast_ais ?n ?k ?p ?s] =>
      let Hb := fresh "Hb" in
      destruct (broadcast_ais n k p s) as [[[]|] ?sb] eqn:Hb;
      apply broadcast_ais_spec in Hb as (?k & ?tr & -> & ?Hpay & ?Hall)
  | context [if ?b then _ else _] => let Hi := fresh "Hi" in destruct b eqn:Hi
  end.

Ltac pl_open Hp H :=
  unfold process_line, parse, bind in H; cbn [fst snd map_env env] in H;
  rewrite Hp in H; repeat (cbn in H; pl_split H); cbn in H.

Section Steps.
Variable ais : list string.
Variables interval location_interval location_anchor_interval : Z.
Variable parse_sentence : nat -> string -> option ParsedMessage.
Variable clock : nat -> Z.
Variable ais_net : nat -> string -> bool.

(** The rate-limit key of a message: its MMSI, [own_vessel] and field. *)
Definition rate_key (pm : ParsedMessage) : option (Z * bool * Field) :=
  match pm with
  | VesselDynamicData_ d => Some (vd_mmsi d, vd_own_vessel d, DynamicField)
  | VesselStaticData_ d => Some (vs_mmsi d, vs_own_vessel d, StaticField)
  | _ => None
  end.
Local Abbreviation pl := (process_line ais interval location_interval location_anchor_interval parse_sentence clock ais_net).
Lemma process_line_incomplete s line r s' :
  parse_sentence (nparse (env s)) line = Some Incomplete ->
  pl line s = (r, s') ->
  r = Some tt /\ fragments (locs s') = fragments (locs s) ++ [line] /\
  ais_log (env s') = ais_log (env s) /\ location_tx (env s') = location_tx (env s).
Proof. intros Hp H. pl_open Hp H. by injection H as <- <-. Qed.

Lemma process_line_payload s line pm m own f r s' :
  parse_sentence (nparse (env s)) line = Some pm ->
  rate_key pm = Some (m, own, f) ->
  fst (fst (check_field interval location_interval (last_sent (disp s)) m own f
                        (clock (nclock (env s))))) = true ->
  pl line s = (r, s') ->
  exists tr, ais_log (env s') = ais_log (env s) ++ tr /\
    (forall e, In e tr -> payload_of e = concat_str (fragments (locs s) ++ [line])) /\
    (r = Some tt -> map sink_of tr = ais).
Proof.
  intros Hp Hk Hok H.
  destruct pm as [|d|d|d|tag]; try discriminate; injection Hk as <- <- <-;
    pl_open Hp H; cbn in Hok; try discriminate;
    injection H as <- <-; cbn; eexists; split_and!; try reflexivity; eauto; discriminate.
Qed.

Definition classify_pure (allow : bool) (pm : ParsedMessage) : option (bool * option float * option float) :=
  match pm with
  | VesselDynamicData_ d => Some (allow && vd_own_vessel d, vd_latitude d, vd_longitude d)
  | VesselStaticData_ _ => Some (false, None, None)
  | Rmc d => Some (true, rmc_latitude d, rmc_longitude d)
  | _ => None
  end.
Definition schedule_index (pm : ParsedMessage) (n : nat) : nat :=
  match pm with VesselDynamicData_ _ | VesselStaticData_ _ => S n | _ => n end.
Definition unwrap0 (o : option float) : float := match o with Some x => x | None => 0.0%float end.

Lemma process_line_location s line pm la lo r s' :
  parse_sentence (nparse (env s)) line = Some pm ->
  classify_pure (allow_ais_for_location (locs s)) pm = Some (true, la, lo) ->
  pl line s = (r, s') ->
  (r = None -> location_tx (env s') = location_tx (env s)) /\
  (r = Some tt ->
    let t := clock (schedule_index pm (nclock (env s))) in
    let l := locs s in
    if (next_location_anchor_instant_ l <=? t)
       || ((next_location_instant_ l <=? t) && is_moving la lo (prev_lat l) (prev_long l))
    then location_tx (env s') = location_tx (env s) ++ [pm] /\
         prev_lat (locs s') = unwrap0 la /\ prev_long (locs s') = unwrap0 lo /\
         last_sent_location (disp s') = t /\
         next_location_instant_ (locs s') = next_location_instant location_interval t t /\
         next_location_anchor_instant_ (locs s') = next_location_anchor_instant location_anchor_interval t t
    else location_tx (env s') = location_tx (env s) /\
         prev_lat (locs s') = prev_lat l /\ prev_long (locs s') = prev_long l /\
         last_sent_location (disp s') = last_sent_location (disp s) /\
         next_location_instant_ (locs s') = next_location_instant_ l /\
         next_location_anchor_instant_ (locs s') = next_location_anchor_instant_ l).
Proof.
  intros Hp Hc H.
  destruct pm as [|d|d|d|tag]; cbn in Hc; try discriminate; injection Hc; intros; subst;
    pl_open Hp H; try congruence; injection H as <- <-; split; try discriminate; intros _; cbn;
    repeat match goal with Hi : ?b = _ |- context [if ?b then _ else _] => rewrite Hi end;
    cbn; try split_and!; try reflexivity.
  Qed.

Lemma process_line_rmc_latch s line d r s' :
  parse_sentence (nparse (env s)) line = Some (Rmc d) ->
  pl line s = (r, s') -> allow_ais_for_location (locs s') = false.
Proof. intros Hp H. pl_open Hp H; injection H as <- <-; reflexivity. Qed.

Definition not_vdd (m : ParsedMessage) : Prop :=
  match m with VesselDynamicData_ _ => False | _ => True end.

Lemma process_line_latched s line r s' :
  allow_ais_for_location (locs s) = false ->
  pl line s = (r, s') ->
  allow_ais_for_location (locs s') = false /\
  exists new, location_tx (env s') = location_tx (env s) ++ new /\ Forall not_vdd new.
Proof.
  intros Ha H.
  destruct (parse_sentence (nparse (env s)) line) as [[|d|d|d|tag]|] eqn:Hp;
    pl_open Hp H; rewrite ?Ha in *; cbn in *; try discriminate;
    injection H as <- <-; cbn; (split; [first [assumption | reflexivity]|]);
    first [ exists []; split; [by rewrite app_nil_r | constructor]
          | eexists [_]; split; [reflexivity | repeat constructor] ].
Qed.

Section Lift.
Variable R : St -> St -> Prop.
Hypothesis R_refl : forall s, R s s.
Hypothesis R_trans : forall s1 s2 s3, R s1 s2 -> R s2 s3 -> R s1 s3.
Hypothesis R_line : forall line s r s', pl line s = (r, s') -> R s s'.

Lemma process_lines_lift ls s r s' :
  process_lines ais interval location_interval location_anchor_interval parse_sentence clock ais_net ls s = (r, s') -> R s s'.
Proof.
  revert s. induction ls as [|line rest IH]; intros s H; cbn in H.
  - injection H as _ <-. apply R_refl.
  - unfold bind in H. destruct (pl line s) as [[[]|] s1] eqn:H1.
    + eapply R_trans; [eapply R_line; exact H1 | exact (IH _ H)].
    + injection H as _ <-. eapply R_line; exact H1.
Qed.

Lemma work_events_lift evs s r s' :
  work_events ais interval location_interval location_anchor_interval parse_sentence clock ais_net evs s = (r, s') -> R s s'.
Proof.
  revert s. induction evs as [|ev rest IH]; intros s H; cbn in H.
  - injection H as _ <-. apply R_refl.
  - unfold bind in H.
    destruct (work_event ais interval location_interval location_anchor_interval parse_sentence clock ais_net ev s) as [[[]|] s1] eqn:H1.
    + eapply R_trans; [| exact (IH _ H)].
      destruct ev; cbn in H1; [eapply process_lines_lift; exact H1 | discriminate].
    + injection H as _ <-. destruct ev; cbn in H1.
      * eapply process_lines_lift; exact H1.
      * injection H1 as <-. apply R_refl.
Qed.
End Lift.












Section RateLimit.
Hypothesis clock_mono : forall n, clock n <= clock (S n).







End RateLimit.

Lemma process_line_quiet s line r s' :
  pl line s = (r, s') ->
  (exists new, location_tx (env s') = location_tx (env s) ++ new) /\
  (location_tx (env s') = location_tx (env s) ->
   prev_lat (locs s') = prev_lat (locs s) /\ prev_long (locs s') = prev_long (locs s) /\
   next_location_instant_ (locs s') = next_location_instant_ (locs s)) /\
  (nclock (env s) <= nclock (env s'))%nat.
Proof.
  intros H.
  destruct (parse_sentence (nparse (env s)) line) as [[|d|d|d|tag]|] eqn:Hp;
    pl_open Hp H; injection H as <- <-; cbn;
    (split_and!;
     [ first [exists []; by rewrite app_nil_r | eexists [_]; reflexivity]
     | intros E; first [ split_and!; reflexivity
                       | exfalso; apply (f_equal (@length _)) in E;
                         rewrite length_app in E; cbn in E; lia ]
     | lia ]).
Qed.

End Steps.
End DispatcherFacts.

(* ------------------------------------------------------------------ *)
(** ** Concrete Dispatcher runs *)

Module DispatcherDemo.
Import Dispatcher.

Definition l_frag1 : string := "!AIVDM,2,1,3,B,55P5TL01VIaAL@7WKO@mBplU@<PDhh000000001S;AJ::4A80?4i@E53,0*3E".
Definition l_frag2 : string := "!AIVDM,2,2,3,B,1@0000000000000,2*55".
Definition l_other_pos : string := "!AIVDM,1,1,,A,13u?etPv2;0n:dDPwUM1U1Cb069D,0*24".
Definition l_own_pos : string := "!AIVDO,1,1,,B,13u?etPv2;0n:dDPwUM1U1Cb069D,0*27".
Definition l_rmc : string := "$GPRMC,030405.00,A,5310.20000,N,00525.20000,E,0.0,,020125,,,A*6C".
Definition l_rmc_a : string := "$GPRMC,000000.00,A,0000.05400,N,00000.00000,E,0.0,,020125,,,A*6E".
Definition l_rmc_b : string := "$GPRMC,000100.00,A,0000.05400,S,00000.00000,E,0.0,,020125,,,A*72".
Definition l_gsv : string := "$GPGSV,1,1,01,08,45,120,40*40".

Definition vsd_other : VesselStaticData := mkVSD 244123456 false.
Definition vdd_other : VesselDynamicData := mkVDD 244123456 false (Some 52.1%float) (Some 4.3%float).
Definition vdd_own : VesselDynamicData := mkVDD 244000000 true (Some 53.17%float) (Some 5.42%float).
Definition rmc_pos : RmcData := mkRmc None (Some 53.17%float) (Some 5.42%float) None None.
Definition rmc_a : RmcData := mkRmc None (Some 0.0009%float) (Some 0.0%float) None None.
Definition rmc_b : RmcData := mkRmc None (Some (-0.0009)%float) (Some 0.0%float) None None.

(** A parser that decodes each of the sentences above the same way at
    every call, and rejects everything else. *)
Definition demo_parse (_ : nat) (line : string) : option ParsedMessage :=
  if String.eqb line l_frag1 then Some Incomplete
  else if String.eqb line l_frag2 then Some (VesselStaticData_ vsd_other)
  else if String.eqb line l_other_pos then Some (VesselDynamicData_ vdd_other)
  else if String.eqb line l_own_pos then Some (VesselDynamicData_ vdd_own)
  else if String.eqb line l_rmc then Some (Rmc rmc_pos)
  else if String.eqb line l_rmc_a then Some (Rmc rmc_a)
  else if String.eqb line l_rmc_b then Some (Rmc rmc_b)
  else if String.eqb line l_gsv then Some (Other "Gsv")
  else None.

(** A clock that advances [k] seconds between two readings. *)
Definition secs_clock (k : Z) (n : nat) : Z := Z.of_nat n * k * NANOS.

Definition net_up (_ : nat) (_ : string) : bool := true.
Definition net_down (_ : nat) (_ : string) : bool := false.

Definition demo_sinks : list string := ["a1"; "a2"].

(** A provider message: the lines, each terminated by CRLF. *)
Definition chunk (ls : list string) : string := concat_str (map (fun l => (l ++ crlf)%string) ls).

(** The configuration of the runs: interval 60 s, location interval 600 s,
    anchor interval 86400 s, one second per clock reading. *)
Definition demo_main (net : nat -> string -> bool) (evs : list (option string)) : St :=
  main demo_sinks 60 600 86400 demo_parse (secs_clock 1) net evs.

Definition demo_s0 : St := rebuild 600 86400 (secs_clock 1) env0.

Definition demo_line (net : nat -> string -> bool) (line : string) (s : St) : option unit * St :=
  process_line demo_sinks 60 600 86400 demo_parse (secs_clock 1) net line s.

Lemma secs_clock_mono k : 0 <= k -> forall n, secs_clock k n <= secs_clock k (S n).
Proof. intros Hk n. unfold secs_clock, NANOS. rewrite Nat2Z.inj_succ. nia. Qed.

End DispatcherDemo.


(* ------------------------------------------------------------------ *)
(** ** Claims about the Dispatcher *)

Lemma append_empty_r (x : string) : (x ++ "")%string = x.
Proof.
  induction x as [|c x IH]; [reflexivity|].
  change (String c x ++ "")%string with (String c (x ++ "")). by rewrite IH.
Qed.

Module LatchClaims.
Import Dispatcher DispatcherFacts DispatcherDemo.

(** C4 (amended). The [allow_ais_for_location] latch lives in one run of
    [work]: an [Rmc] line sets it to false; while it is false every further
    line of that work loop keeps it false, and nothing emitted on the
    location channel is a [VesselDynamicData]. A rebuild of the Dispatcher
    after an I/O error starts a new work loop with the latch true again. *)
Theorem rmc_latch_within_work_loop (ais : list string) (interval li lai : Z)
    (parse : nat -> string -> option ParsedMessage) (clock : nat -> Z)
    (net : nat -> string -> bool) :
  (forall s line d r s',
     parse (nparse (env s)) line = Some (Rmc d) ->
     process_line ais interval li lai parse clock net line s = (r, s') ->
     allow_ais_for_location (locs s') = false) /\
  (forall s evs r s',
     allow_ais_for_location (locs s) = false ->
     work_events ais interval li lai parse clock net evs s = (r, s') ->
     allow_ais_for_location (locs s') = false /\
     exists new, location_tx (env s') = location_tx (env s) ++ new /\ Forall not_vdd new) /\
  (forall e, allow_ais_for_location (locs (rebuild li lai clock e)) = true).
Proof.
  split; [| split; [| reflexivity]].
  - intros s line d r s'. apply process_line_rmc_latch.
  - intros s evs r s' Ha H.
    set (R := fun s1 s2 : St => allow_ais_for_location (locs s1) = false ->
                allow_ais_for_location (locs s2) = false /\
                exists new, location_tx (env s2) = location_tx (env s1) ++ new /\ Forall not_vdd new).
    enough (HR : R s s') by exact (HR Ha).
    eapply (work_events_lift ais interval li lai parse clock net R); [| | | exact H].
    + intros s1 H1. split; [exact H1|]. exists []. split; [by rewrite app_nil_r | constructor].
    + intros s1 s2 s3 H12 H23 H1.
      destruct (H12 H1) as [H2 (n1 & E1 & F1)]. destruct (H23 H2) as [H3 (n2 & E2 & F2)].
      split; [exact H3|]. exists (n1 ++ n2). split; [by rewrite E2, E1, app_assoc|].
      by apply Forall_app.
    + intros line s1 r1 s2 Hl H1. eapply process_line_latched; eassumption.
Qed.

Lemma rmc_latch_within_work_loop_witness :
  allow_ais_for_location (locs (snd (demo_line net_up l_rmc demo_s0))) = false /\
  (allow_ais_for_location
     (locs (snd (work_events demo_sinks 60 600 86400 demo_parse (secs_clock 1) net_up
                  [Some (chunk [l_own_pos])] (snd (demo_line net_up l_rmc demo_s0))))) = false /\
   exists new,
     location_tx (env (snd (work_events demo_sinks 60 600 86400 demo_parse (secs_clock 1) net_up
                  [Some (chunk [l_own_pos])] (snd (demo_line net_up l_rmc demo_s0))))) =
     location_tx (env (snd (demo_line net_up l_rmc demo_s0))) ++ new /\ Forall not_vdd new).
Proof.
  destruct (rmc_latch_within_work_loop demo_sinks 60 600 86400 demo_parse (secs_clock 1) net_up)
    as [H1 [H2 _]].
  split.
  - eapply (H1 demo_s0 l_rmc rmc_pos); [vm_compute; reflexivity | apply surjective_pairing].
  - eapply H2; [vm_compute; reflexivity | apply surjective_pairing].
Defined.

(** C4, counterexample: an [Rmc] sentence, then a read error (the Dispatcher
    is rebuilt), then an own-vessel [VesselDynamicData]: the latter is
    emitted on the location channel after the [Rmc]. *)
Lemma own_vdd_emitted_after_rebuild :
  location_tx (env (demo_main net_up [Some (chunk [l_rmc]); None; Some (chunk [l_own_pos])])) =
  [Rmc rmc_pos; VesselDynamicData_ vdd_own].
Proof. vm_compute. reflexivity. Qed.

End LatchClaims.

Module ScheduleClaims.
Import Dispatcher DispatcherFacts DispatcherDemo.

(** C5 (amended). For a line whose message is location-eligible for the own
    vessel (an [Rmc], or a [VesselDynamicData] with [own_vessel] while the
    latch is true): if its AIS broadcast fails, [work] returns the error
    and nothing is sent on the location channel. Otherwise, with [t] the
    instant read for the scheduling, the message is sent exactly when
    [t >= next_location_anchor_instant], or [t >= next_location_instant]
    and [is_moving(lat, long, prev_lat, prev_long)]. On a send
    [prev_lat]/[prev_long] become [lat.unwrap_or(0.0)]/[long.unwrap_or(0.0)],
    [last_sent_location] becomes [t] and both deadlines are recomputed from
    [t]. With no send they all stay as they were. *)
Theorem location_fires_iff_after_successful_broadcast (ais : list string) (interval li lai : Z)
    (parse : nat -> string -> option ParsedMessage) (clock : nat -> Z)
    (net : nat -> string -> bool) s line pm la lo r s' :
  parse (nparse (env s)) line = Some pm ->
  classify_pure (allow_ais_for_location (locs s)) pm = Some (true, la, lo) ->
  process_line ais interval li lai parse clock net line s = (r, s') ->
  (r = None -> location_tx (env s') = location_tx (env s)) /\
  (r = Some tt ->
    let t := clock (schedule_index pm (nclock (env s))) in
    let l := locs s in
    if (next_location_anchor_instant_ l <=? t)
       || ((next_location_instant_ l <=? t) && is_moving la lo (prev_lat l) (prev_long l))
    then location_tx (env s') = location_tx (env s) ++ [pm] /\
         prev_lat (locs s') = unwrap0 la /\ prev_long (locs s') = unwrap0 lo /\
         last_sent_location (disp s') = t /\
         next_location_instant_ (locs s') = next_location_instant li t t /\
         next_location_anchor_instant_ (locs s') = next_location_anchor_instant lai t t
    else location_tx (env s') = location_tx (env s) /\
         prev_lat (locs s') = prev_lat l /\ prev_long (locs s') = prev_long l /\
         last_sent_location (disp s') = last_sent_location (disp s) /\
         next_location_instant_ (locs s') = next_location_instant_ l /\
         next_location_anchor_instant_ (locs s') = next_location_anchor_instant_ l).
Proof. apply process_line_location. Qed.

Lemma location_fires_iff_after_successful_broadcast_witness :
  location_tx (env (snd (demo_line net_up l_own_pos demo_s0))) = [VesselDynamicData_ vdd_own].
Proof.
  destruct (location_fires_iff_after_successful_broadcast demo_sinks 60 600 86400 demo_parse
              (secs_clock 1) net_up demo_s0 l_own_pos (VesselDynamicData_ vdd_own)
              (Some 53.17%float) (Some 5.42%float)
              (fst (demo_line net_up l_own_pos demo_s0)) (snd (demo_line net_up l_own_pos demo_s0)))
    as [_ H]; [vm_compute; reflexivity | vm_compute; reflexivity | apply surjective_pairing |].
  specialize (H ltac:(vm_compute; reflexivity)). vm_compute in H. vm_compute. apply H.
Defined.

(** C5, counterexample: the own-vessel position at the start of a work loop
    meets the firing condition at the scheduling instant (clock reading 3),
    but its AIS broadcast fails, so nothing reaches the location channel. *)
Lemma location_skipped_when_ais_send_fails :
  fst (demo_line net_down l_own_pos demo_s0) = None /\
  location_tx (env (snd (demo_line net_down l_own_pos demo_s0))) = [] /\
  classify_pure (allow_ais_for_location (locs demo_s0)) (VesselDynamicData_ vdd_own) =
    Some (true, Some 53.17%float, Some 5.42%float) /\
  schedule_index (VesselDynamicData_ vdd_own) (nclock (env demo_s0)) = 3%nat /\
  ((next_location_anchor_instant_ (locs demo_s0) <=? secs_clock 1 3)
   || ((next_location_instant_ (locs demo_s0) <=? secs_clock 1 3)
       && is_moving (Some 53.17%float) (Some 5.42%float)
            (prev_lat (locs demo_s0)) (prev_long (locs demo_s0)))) = true.
Proof. vm_compute. split_and!; reflexivity. Qed.

End ScheduleClaims.

Module RateLimitClaims.
Import Dispatcher DispatcherFacts DispatcherDemo.




End RateLimitClaims.

Module FragmentClaims.
Import Dispatcher DispatcherFacts DispatcherDemo.

(** C7 (code bug). A line that decodes to a message the classification
    ignores (here a GSV sentence) does not clear the fragments: after an
    [Incomplete] line and such a line the accumulator still holds the
    first line, and the next broadcast payload starts with it. *)
Theorem fragment_survives_ignored_message :
  fragments (locs (demo_main net_up [Some (chunk [l_frag1; l_gsv])])) = [l_frag1] /\
  ais_log (env (demo_main net_up [Some (chunk [l_frag1; l_gsv; l_other_pos])])) =
    [("a1", (l_frag1 ++ l_other_pos)%string, true); ("a2", (l_frag1 ++ l_other_pos)%string, true)].
Proof. vm_compute. split; reflexivity. Qed.

(** C8. An [Incomplete] line is appended to the fragments and nothing is
    broadcast. When a line decodes to a [VesselDynamicData] or
    [VesselStaticData] that passes the rate limit, every AIS send carries
    [concat_str] of the fragments followed by that line, in arrival order,
    and without an error every sink of [ais] gets it, in order. Hence for
    an [Incomplete] line then a decoded one, from empty fragments, the
    payload is the two lines concatenated. The lines are those of
    [str::lines], without their terminators. *)
Theorem fragments_concatenated_into_payload (ais : list string) (interval li lai : Z)
    (parse : nat -> string -> option ParsedMessage) (clock : nat -> Z)
    (net : nat -> string -> bool) :
  (forall s line r s',
     parse (nparse (env s)) line = Some Incomplete ->
     process_line ais interval li lai parse clock net line s = (r, s') ->
     r = Some tt /\ fragments (locs s') = fragments (locs s) ++ [line] /\
     ais_log (env s') = ais_log (env s)) /\
  (forall s line pm m own f r s',
     parse (nparse (env s)) line = Some pm ->
     rate_key pm = Some (m, own, f) ->
     fst (fst (check_field interval li (last_sent (disp s)) m own f (clock (nclock (env s))))) = true ->
     process_line ais interval li lai parse clock net line s = (r, s') ->
     exists tr, ais_log (env s') = ais_log (env s) ++ tr /\
       (forall e, In e tr -> payload_of e = concat_str (fragments (locs s) ++ [line])) /\
       (r = Some tt -> map sink_of tr = ais)) /\
  (forall s l1 l2 pm m own f r1 s1 r2 s2,
     fragments (locs s) = [] ->
     parse (nparse (env s)) l1 = Some Incomplete ->
     process_line ais interval li lai parse clock net l1 s = (r1, s1) ->
     parse (nparse (env s1)) l2 = Some pm ->
     rate_key pm = Some (m, own, f) ->
     fst (fst (check_field interval li (last_sent (disp s1)) m own f (clock (nclock (env s1))))) = true ->
     process_line ais interval li lai parse clock net l2 s1 = (r2, s2) ->
     exists tr, ais_log (env s2) = ais_log (env s1) ++ tr /\
       (forall e, In e tr -> payload_of e = (l1 ++ l2)%string) /\
       (r2 = Some tt -> map sink_of tr = ais)).
Proof.
  split_and!.
  - intros s line r s' Hp H.
    destruct (process_line_incomplete ais interval li lai parse clock net _ _ _ _ Hp H) as (Hr & Hf & Hl & _).
    split_and!; assumption.
  - intros. eapply process_line_payload; eassumption.
  - intros s l1 l2 pm m own f r1 s1 r2 s2 Hf Hp1 H1 Hp2 Hk Hok H2.
    destruct (process_line_incomplete ais interval li lai parse clock net _ _ _ _ Hp1 H1) as (_ & Hf1 & _ & _).
    destruct (process_line_payload ais interval li lai parse clock net _ _ _ _ _ _ _ _ Hp2 Hk Hok H2)
      as (tr & Hlog & Hpay & Hall).
    exists tr. split_and!; [exact Hlog | | exact Hall].
    intros e He. rewrite (Hpay e He), Hf1, Hf. cbn. by rewrite append_empty_r.
Qed.

Lemma fragments_concatenated_into_payload_witness :
  exists tr,
    ais_log (env (snd (demo_line net_up l_frag2 (snd (demo_line net_up l_frag1 demo_s0))))) =
    ais_log (env (snd (demo_line net_up l_frag1 demo_s0))) ++ tr /\
    (forall e, In e tr -> payload_of e = (l_frag1 ++ l_frag2)%string) /\
    (fst (demo_line net_up l_frag2 (snd (demo_line net_up l_frag1 demo_s0))) = Some tt ->
     map sink_of tr = demo_sinks).
Proof.
  destruct (fragments_concatenated_into_payload demo_sinks 60 600 86400 demo_parse (secs_clock 1) net_up)
    as (_ & _ & H3).
  eapply (H3 demo_s0 l_frag1 l_frag2 (VesselStaticData_ vsd_other) 244123456 false StaticField);
    [ reflexivity | vm_compute; reflexivity | apply surjective_pairing
    | vm_compute; reflexivity | reflexivity | vm_compute; reflexivity | apply surjective_pairing ].
Defined.

End FragmentClaims.

Module StartClaims.
Import Dispatcher DispatcherFacts DispatcherDemo.

(** C10 (amended). A work loop starts from [Dispatcher::new] with
    [prev_lat = prev_long = 0.0], [last_sent_location] [location_interval]
    seconds before the first clock reading, and [next_location_instant]
    equal to the second reading. This assumes a monotone clock and a
    non-negative [location_interval]. So while nothing has been emitted in
    the loop, a location-eligible own-vessel line with [is_moving(lat, long,
    0.0, 0.0)] (both coordinates present, one differing from 0.0 by more
    than 0.001) is emitted, provided its processing does not fail, that is,
    its AIS broadcast, if any, succeeds. The motion gate compares with the
    last emitted position, not with (0, 0). *)
Theorem fresh_loop_first_fix_emitted (ais : list string) (interval li lai : Z)
    (parse : nat -> string -> option ParsedMessage) (clock : nat -> Z)
    (net : nat -> string -> bool) :
  (forall n, clock n <= clock (S n)) -> 0 <= li ->
  (forall e,
     prev_lat (locs (rebuild li lai clock e)) = 0.0%float /\
     prev_long (locs (rebuild li lai clock e)) = 0.0%float /\
     last_sent_location (disp (rebuild li lai clock e)) = clock (nclock e) - from_secs li /\
     next_location_instant_ (locs (rebuild li lai clock e)) = clock (S (nclock e))) /\
  (forall e evs s1 ls s2 line pm la lo s',
     work_events ais interval li lai parse clock net evs (rebuild li lai clock e) = (Some tt, s1) ->
     process_lines ais interval li lai parse clock net ls s1 = (Some tt, s2) ->
     location_tx (env s2) = location_tx (env (rebuild li lai clock e)) ->
     parse (nparse (env s2)) line = Some pm ->
     classify_pure (allow_ais_for_location (locs s2)) pm = Some (true, la, lo) ->
     is_moving la lo 0.0%float 0.0%float = true ->
     process_line ais interval li lai parse clock net line s2 = (Some tt, s') ->
     location_tx (env s') = location_tx (env s2) ++ [pm]).
Proof.
  intros Hmono Hli.
  assert (Hle : forall n n', (n <= n')%nat -> clock n <= clock n').
  { induction 1; [lia | specialize (Hmono m); lia]. }
  assert (Hstart : forall e,
     next_location_instant_ (locs (rebuild li lai clock e)) = clock (S (nclock e))).
  { intros e. cbn. unfold next_location_instant.
    pose proof (Hmono (nclock e)) as Hm.
    assert (Hel : li <= secs_since (clock (S (nclock e))) (clock (nclock e) - from_secs li)).
    { unfold secs_since, from_secs, NANOS in *.
      apply Z.div_le_lower_bound; [lia|]. lia. }
    apply Z.ltb_ge in Hel. rewrite Hel. unfold from_secs. lia. }
  split.
  - intros e. split_and!; [reflexivity | reflexivity | reflexivity | apply Hstart].
  - intros e evs s1 ls s2 line pm la lo s' Hw Hls Htx Hp Hc Hmov H.
    set (Q := fun a b : St =>
      (exists new, location_tx (env b) = location_tx (env a) ++ new) /\
      (location_tx (env b) = location_tx (env a) ->
       prev_lat (locs b) = prev_lat (locs a) /\ prev_long (locs b) = prev_long (locs a) /\
       next_location_instant_ (locs b) = next_location_instant_ (locs a)) /\
      (nclock (env a) <= nclock (env b))%nat).
    assert (Qrefl : forall a, Q a a).
    { intros a. split_and!; [exists []; by rewrite app_nil_r | done | lia]. }
    assert (Qtrans : forall a b c, Q a b -> Q b c -> Q a c).
    { intros a b c (( n1 & E1) & I1 & C1) ((n2 & E2) & I2 & C2). split_and!.
      - exists (n1 ++ n2). by rewrite E2, E1, app_assoc.
      - intros Eac. rewrite E2, E1, <- app_assoc in Eac.
        assert (Hn : n1 ++ n2 = []).
        { apply (f_equal (@length _)) in Eac. rewrite !length_app in Eac.
          apply length_zero_iff_nil. rewrite length_app. lia. }
        apply app_eq_nil in Hn as [-> ->]. rewrite app_nil_r in E1, E2.
        destruct (I1 E1) as (A1 & B1 & D1). destruct (I2 E2) as (A2 & B2 & D2).
        split_and!; congruence.
      - lia. }
    assert (Qline : forall l a r b,
      process_line ais interval li lai parse clock net l a = (r, b) -> Q a b).
    { intros l a r b Hl. eapply process_line_quiet; exact Hl. }
    assert (HQ : Q (rebuild li lai clock e) s2).
    { eapply Qtrans.
      - eapply (work_events_lift ais interval li lai parse clock net Q Qrefl Qtrans Qline); exact Hw.
      - eapply (process_lines_lift ais interval li lai parse clock net Q Qrefl Qtrans Qline); exact Hls. }
    destruct HQ as (_ & Hq & Hn). destruct (Hq Htx) as (Hla & Hlo & Hni).
    rewrite Hstart in Hni. cbn in Hla, Hlo, Hn.
    destruct (process_line_location ais interval li lai parse clock net _ _ _ _ _ _ _ Hp Hc H) as [_ Hfire].
    specialize (Hfire eq_refl). cbn zeta in Hfire.
    rewrite Hla, Hlo, Hmov, Hni in Hfire.
    assert (Ht : clock (S (nclock e)) <= clock (schedule_index pm (nclock (env s2)))).
    { apply Hle. destruct pm; cbn; lia. }
    apply Z.leb_le in Ht. rewrite Ht, orb_true_r in Hfire.
    apply Hfire.
Qed.

Lemma fresh_loop_first_fix_emitted_witness :
  location_tx (env (snd (demo_line net_up l_rmc demo_s0))) = [Rmc rmc_pos].
Proof.
  destruct (fresh_loop_first_fix_emitted demo_sinks 60 600 86400 demo_parse (secs_clock 1) net_up)
    as [_ H]; [apply secs_clock_mono; lia | lia |].
  apply (H env0 [] demo_s0 [] demo_s0 l_rmc (Rmc rmc_pos) (Some 53.17%float) (Some 5.42%float)
           (snd (demo_line net_up l_rmc demo_s0)));
    [ reflexivity | reflexivity | reflexivity | vm_compute; reflexivity | reflexivity
    | vm_compute; reflexivity | vm_compute; reflexivity ].
Defined.

(** C10, counterexample: with a 3600 s anchor interval and 2000 s between
    clock readings, an [Rmc] at latitude 0.0009 is emitted at the anchor
    deadline (reading 2). The next anchor deadline is then 7600 s. An [Rmc]
    at latitude -0.0009, read at 6000 s (reading 3), passes the motion gate
    against 0.0009 and is emitted before that deadline, though both
    positions lie within 0.001 degrees of (0, 0). *)
Lemma motion_gate_passes_near_origin :
  location_tx (env (main demo_sinks 60 600 3600 demo_parse (secs_clock 2000) net_up
                     [Some (chunk [l_rmc_a])])) = [Rmc rmc_a] /\
  next_location_anchor_instant_ (locs (main demo_sinks 60 600 3600 demo_parse (secs_clock 2000) net_up
                     [Some (chunk [l_rmc_a])])) = from_secs 7600 /\
  nclock (env (main demo_sinks 60 600 3600 demo_parse (secs_clock 2000) net_up
                     [Some (chunk [l_rmc_a])])) = 3%nat /\
  secs_clock 2000 3 = from_secs 6000 /\
  location_tx (env (main demo_sinks 60 600 3600 demo_parse (secs_clock 2000) net_up
                     [Some (chunk [l_rmc_a; l_rmc_b])])) = [Rmc rmc_a; Rmc rmc_b].
Proof. vm_compute. split_and!; reflexivity. Qed.

End StartClaims.

(* ================================================================== *)
(** * Further properties of the crates *)

Close Scope Z_scope.

Module StrFacts.

Lemma append_cons (c : ascii) (a b : string) : (String c a ++ b)%string = String c (a ++ b).
Proof. reflexivity. Qed.

Lemma string_of_list_ascii_app (a b : list ascii) :
  string_of_list_ascii (a ++ b) = (string_of_list_ascii a ++ string_of_list_ascii b)%string.
Proof. induction a as [|c a IH]; cbn; [reflexivity|]. now rewrite append_cons, IH. Qed.

Lemma string_app_assoc (a b c : string) : ((a ++ b) ++ c = a ++ (b ++ c))%string.
Proof. induction a as [|x a IH]; [reflexivity|]. now rewrite !append_cons, IH. Qed.

Lemma rev_cons_str (c : ascii) (acc : list ascii) :
  string_of_list_ascii (rev (c :: acc)) = (string_of_list_ascii (rev acc) ++ String c "")%string.
Proof. cbn. now rewrite string_of_list_ascii_app. Qed.

Fixpoint all_chars (f : ascii -> bool) (s : string) : bool :=
  match s with EmptyString => true | String c r => f c && all_chars f r end.

End StrFacts.

Module CacheFacts.
Import Persistence.

Definition key_lt (a b : string * string) : Prop := String.compare (fst a) (fst b) = Lt.

(** The invariant of [Persistence]: the tree is in key order and [count]
    is its number of entries. *)
Definition inv (p : Persistence) : Prop := Sorted key_lt (db p) /\ count p = length (db p).

Lemma compare_as_OT (a b : string) : String.compare a b = String_as_OT.compare a b.
Proof.
  reflexivity.
Qed.

Lemma str_lt_trans (a b c : string) :
  String.compare a b = Lt -> String.compare b c = Lt -> String.compare a c = Lt.
Proof.
  rewrite !compare_as_OT. intros H1 H2.
  exact (StrictOrder_Transitive (R:=String_as_OT.lt) a b c H1 H2).
Qed.

Lemma key_lt_trans : Relations_1.Transitive key_lt.
Proof. intros x y z. apply str_lt_trans. Qed.

Lemma compare_refl (a : string) : String.compare a a = Eq.
Proof.
  destruct (String.compare a a) eqn:E; try reflexivity;
  pose proof (String.compare_antisym a a) as A; rewrite E in A; discriminate.
Qed.

Lemma lookup_absent_sorted (k : string) (l : list (string * string)) :
  StronglySorted key_lt l ->
  (forall kv, In kv l -> String.compare k (fst kv) = Lt) ->
  kv_lookup k l = None.
Proof.
  induction l as [|[k' v'] t IH]; intros Hs Hlt; [reflexivity|].
  cbn. destruct (String.eqb_spec k k') as [->|Hne].
  - specialize (Hlt (k', v') (or_introl eq_refl)). cbn in Hlt. rewrite compare_refl in Hlt; discriminate.
  - inversion Hs; subst. apply IH; [assumption|]. intros kv Hin. apply Hlt. now right.
Qed.

Lemma kv_insert_length (k v : string) (l : list (string * string)) :
  Sorted key_lt l ->
  length (kv_insert k v l) = match kv_lookup k l with None => S (length l) | Some _ => length l end.
Proof.
  intros Hs. apply Sorted_StronglySorted in Hs; [|exact key_lt_trans].
  induction l as [|[k' v'] t IH]; [reflexivity|].
  cbn. destruct (String.compare k k') eqn:C.
  - apply String.compare_eq_iff in C; subst. now rewrite String.eqb_refl.
  - destruct (String.eqb_spec k k') as [->|Hne]; [rewrite compare_refl in C; discriminate|].
    inversion Hs as [|? ? Hs' Hall]; subst.
    rewrite lookup_absent_sorted; [reflexivity|assumption|].
    intros kv Hin. eapply str_lt_trans; [exact C|].
    rewrite List.Forall_forall in Hall. exact (Hall kv Hin).
  - destruct (String.eqb_spec k k') as [->|Hne]; [rewrite compare_refl in C; discriminate|].
    inversion Hs; subst. cbn. rewrite IH by assumption.
    now destruct (kv_lookup k t).
Qed.

Lemma kv_insert_sorted (k v : string) (l : list (string * string)) :
  Sorted key_lt l -> Sorted key_lt (kv_insert k v l).
Proof.
  induction l as [|[k' v'] t IH]; intros Hs; cbn.
  - repeat constructor.
  - destruct (String.compare k k') eqn:C.
    + apply String.compare_eq_iff in C; subst. inversion Hs as [|? ? Hs' Hhd]; subst.
      constructor; [assumption|]. inversion Hhd; subst; constructor. assumption.
    + constructor; [assumption|]. constructor. exact C.
    + inversion Hs as [|? ? Hs' Hhd]; subst. constructor; [now apply IH|].
      destruct t as [|[k'' v''] t']; cbn.
      * constructor. unfold key_lt; cbn. rewrite String.compare_antisym, C. reflexivity.
      * inversion Hhd; subst.
        destruct (String.compare k k''); constructor; unfold key_lt; cbn;
          try assumption; rewrite String.compare_antisym, C; reflexivity.
Qed.

Lemma kv_remove_absent (k : string) (l : list (string * string)) :
  kv_lookup k l = None -> kv_remove k l = l.
Proof.
  unfold kv_remove. induction l as [|[k' v'] t IH]; [reflexivity|]. cbn.
  rewrite (String.eqb_sym k' k).
  destruct (String.eqb k k'); [discriminate|]. intros H. cbn. f_equal. now apply IH.
Qed.

Lemma lookup_some_length (k v : string) (l : list (string * string)) :
  kv_lookup k l = Some v -> (0 < length l)%nat.
Proof. destruct l; cbn; [discriminate|lia]. Qed.

Lemma kv_remove_length (k : string) (l : list (string * string)) :
  Sorted key_lt l ->
  length (kv_remove k l) = match kv_lookup k l with Some _ => Nat.pred (length l) | None => length l end.
Proof.
  intros Hs. apply Sorted_StronglySorted in Hs; [|exact key_lt_trans].
  induction l as [|[k' v'] t IH]; [reflexivity|].
  inversion Hs as [|? ? Hs' Hall]; subst.
  unfold kv_remove in *. cbn. rewrite (String.eqb_sym k' k).
  destruct (String.eqb_spec k k') as [->|Hne]; cbn.
  - fold (kv_remove k' t). rewrite kv_remove_absent; [reflexivity|].
    apply lookup_absent_sorted; [assumption|]. rewrite List.Forall_forall in Hall. exact Hall.
  - rewrite IH by assumption. destruct (kv_lookup k t) eqn:E; [|reflexivity].
    pose proof (lookup_some_length _ _ _ E). lia.
Qed.

Lemma StronglySorted_filter (f : string * string -> bool) (l : list (string * string)) :
  StronglySorted key_lt l -> StronglySorted key_lt (List.filter f l).
Proof.
  induction l as [|x t IH]; intros Hs; cbn; [constructor|].
  inversion Hs as [|? ? Hs' Hall]; subst.
  destruct (f x); [|now apply IH].
  constructor; [now apply IH|]. rewrite List.Forall_forall in *. intros y Hy.
  apply filter_In in Hy. now apply Hall.
Qed.

Lemma kv_remove_sorted (k : string) (l : list (string * string)) :
  Sorted key_lt l -> Sorted key_lt (kv_remove k l).
Proof.
  intros Hs. apply StronglySorted_Sorted. apply StronglySorted_filter.
  apply Sorted_StronglySorted; [exact key_lt_trans|assumption].
Qed.

Lemma kv_lookup_insert (k v k' : string) (l : list (string * string)) :
  kv_lookup k' (kv_insert k v l) = if String.eqb k' k then Some v else kv_lookup k' l.
Proof.
  induction l as [|[k1 v1] t IH]; cbn; [reflexivity|].
  destruct (String.compare k k1) eqn:C; cbn.
  - apply String.compare_eq_iff in C; subst. now destruct (String.eqb k' k1).
  - reflexivity.
  - rewrite IH. destruct (String.eqb_spec k' k1) as [->|]; [|reflexivity].
    destruct (String.eqb_spec k1 k) as [->|]; [|reflexivity].
    rewrite compare_refl in C; discriminate.
Qed.

Lemma kv_lookup_remove (k k' : string) (l : list (string * string)) :
  kv_lookup k' (kv_remove k l) = if String.eqb k' k then None else kv_lookup k' l.
Proof.
  unfold kv_remove. induction l as [|[k1 v1] t IH]; cbn.
  - now destruct (String.eqb k' k).
  - destruct (String.eqb_spec k1 k) as [->|Hne]; cbn.
    + rewrite IH. destruct (String.eqb k' k); reflexivity.
    + rewrite IH. destruct (String.eqb_spec k' k) as [->|]; [|reflexivity].
      destruct (String.eqb_spec k k1); [congruence|reflexivity].
Qed.

(** X1: [store] and [remove] keep the tree in key order and keep [count]
    equal to the number of stored entries. *)
Theorem store_remove_keep_inv (p : Persistence) (key value : string) :
  inv p -> inv (store p key value) /\ inv (remove p key).
Proof.
  intros [Hs Hc]. unfold inv, store, remove; cbn. split_and!.
  - now apply kv_insert_sorted.
  - rewrite kv_insert_length by assumption. destruct (kv_lookup key (db p)); lia.
  - now apply kv_remove_sorted.
  - rewrite kv_remove_length by assumption. destruct (kv_lookup key (db p)); lia.
Qed.

(** X2: [get] after [store] reads the stored value back and leaves the
    other keys as they were. *)
Theorem get_store (p : Persistence) (key value k : string) :
  get (store p key value) k = if String.eqb k key then Some value else get p k.
Proof. unfold get, store; cbn. apply kv_lookup_insert. Qed.

(** X3: after [remove], [get] of that key is [None]; other keys are untouched. *)
Theorem get_remove (p : Persistence) (key k : string) :
  get (remove p key) k = if String.eqb k key then None else get p k.
Proof. unfold get, remove; cbn. apply kv_lookup_remove. Qed.

Lemma store_remove_keep_inv_witness :
  inv (open [("a", "1")]) /\ (inv (store (open [("a", "1")]) "b" "2") /\ inv (remove (open [("a", "1")]) "b")).
Proof.
  assert (H : inv (open [("a", "1")])) by (split; [repeat constructor | reflexivity]).
  split; [exact H | exact (store_remove_keep_inv (open [("a", "1")]) "b" "2" H)].
Defined.

End CacheFacts.

Module CommonFacts.
Import Common StrFacts.

Fixpoint join_sep (parts : list string) : string :=
  match parts with
  | [] => ""
  | [x] => x
  | x :: rest => x ++ "://" ++ join_sep rest
  end.


Lemma split_go_nonempty (s : string) (acc : list ascii) : split_go s acc <> [].
Proof.
  revert acc. induction s as [|c s IH]; intros acc; cbn; [discriminate|].
  destruct s as [|c2 [|c3 r]]; try apply IH.
  destruct (_ && _ && _); [discriminate|apply IH].
Qed.

Lemma join_cons (x : string) (parts : list string) :
  parts <> [] -> join_sep (x :: parts) = (x ++ "://" ++ join_sep parts)%string.
Proof. destruct parts; [congruence|reflexivity]. Qed.

Lemma split_go_join (n : nat) (s : string) (acc : list ascii) :
  (String.length s <= n)%nat ->
  join_sep (split_go s acc) = (string_of_list_ascii (rev acc) ++ s)%string.
Proof.
  revert s acc; induction n as [|n IH]; intros s acc Hl.
  - destruct s; [cbn; now rewrite append_empty_r|cbn in Hl; lia].
  - destruct s as [|c s]; [cbn; now rewrite append_empty_r|].
    cbn [split_go].
    assert (Hstep : join_sep (split_go s (c :: acc)) = (string_of_list_ascii (rev acc) ++ String c s)%string).
    { rewrite IH by (cbn in Hl; lia). rewrite rev_cons_str. rewrite string_app_assoc. reflexivity. }
    destruct s as [|c2 [|c3 r]]; try exact Hstep.
    destruct (Ascii.eqb_spec c ":"%char), (Ascii.eqb_spec c2 "/"%char), (Ascii.eqb_spec c3 "/"%char);
      cbn [andb]; try exact Hstep.
    subst. rewrite join_cons by apply split_go_nonempty.
    rewrite IH by (cbn in Hl; lia). reflexivity.
Qed.

Lemma split_go_no_sep (n : nat) (s : string) (acc : list ascii) :
  (String.length s <= n)%nat ->
  ~ (exists x y, s = (x ++ "://" ++ y)%string) ->
  split_go s acc = [(string_of_list_ascii (rev acc) ++ s)%string].
Proof.
  revert s acc; induction n as [|n IH]; intros s acc Hl Hn.
  - destruct s; [cbn; now rewrite append_empty_r|cbn in Hl; lia].
  - destruct s as [|c s]; [cbn; now rewrite append_empty_r|].
    cbn [split_go].
    assert (Hstep : split_go s (c :: acc) = [(string_of_list_ascii (rev acc) ++ String c s)%string]).
    { rewrite IH.
      - rewrite rev_cons_str, string_app_assoc. reflexivity.
      - cbn in Hl; lia.
      - intros (x & y & ->). apply Hn. exists (String c x), y. reflexivity. }
    destruct s as [|c2 [|c3 r]]; try exact Hstep.
    destruct (Ascii.eqb_spec c ":"%char), (Ascii.eqb_spec c2 "/"%char), (Ascii.eqb_spec c3 "/"%char);
      cbn [andb]; try exact Hstep.
    subst. exfalso. apply Hn. exists "", r. reflexivity.
Qed.

Lemma split_sep_single (s : string) :
  ~ (exists x y, s = (x ++ "://" ++ y)%string) -> split_sep s = [s].
Proof. intros H. unfold split_sep. now rewrite (split_go_no_sep (String.length s)). Qed.

Lemma split_sep_join (s : string) : join_sep (split_sep s) = s.
Proof. unfold split_sep. now rewrite (split_go_join (String.length s)). Qed.

Lemma split_protocol (p : Protocol) (b : string) :
  split_sep (protocol_fmt p ++ "://" ++ b) = protocol_fmt p :: split_sep b.
Proof. destruct p; reflexivity. Qed.

Lemma protocol_from_str_iff (s : string) (p : Protocol) :
  protocol_from_str s = Ok p <-> s = protocol_fmt p.
Proof.
  split.
  - unfold protocol_from_str.
    destruct (String.eqb_spec s "tcp") as [->|]; [intros H; now injection H as <-|].
    destruct (String.eqb_spec s "udp") as [->|]; [intros H; now injection H as <-|].
    destruct (String.eqb_spec s "tcp-listen") as [->|]; [intros H; now injection H as <-|].
    destruct (String.eqb_spec s "udp-listen") as [->|]; [intros H; now injection H as <-|].
    discriminate.
  - intros ->. destruct p; reflexivity.
Qed.

(** X5: [Protocol]'s [from_str] accepts exactly the four texts its
    [Display] prints, and reads each back as the protocol printed. *)
Theorem protocol_from_str_fmt (s : string) (p : Protocol) :
  protocol_from_str s = Ok p <-> s = protocol_fmt p.
Proof. apply protocol_from_str_iff. Qed.

Section Endpoints.
Variable SocketAddr : Type.
Variable show_addr : SocketAddr -> string.
Variable to_socket_addrs : string -> io_result (list SocketAddr).

(** X6: parsing the [Display] text of an endpoint gives back its protocol
    and address, with no socket or stream open, when the address prints
    without a ["://"] and resolves to itself first. *)
Theorem endpoint_from_str_fmt (e : NetworkEndpoint SocketAddr) (rest : list SocketAddr) :
  ~ (exists x y, show_addr (addr e) = (x ++ "://" ++ y)%string) ->
  to_socket_addrs (show_addr (addr e)) = Ok (addr e :: rest) ->
  endpoint_from_str SocketAddr to_socket_addrs (endpoint_fmt SocketAddr show_addr e)
  = Ok (mkEndpoint (protocol e) (addr e) None [] None).
Proof.
  intros Hn Hr. unfold endpoint_from_str, endpoint_fmt.
  rewrite split_protocol, (split_sep_single _ Hn). cbn [length Nat.eqb negb].
  assert (Hp : protocol_from_str (protocol_fmt (protocol e)) = Ok (protocol e))
    by now apply protocol_from_str_iff.
  now rewrite Hp, Hr.
Qed.

(** X7: [NetworkEndpoint::from_str] fails only with [InvalidInput]; when it
    succeeds, the text is a protocol name, ["://"] and an address text the
    resolver maps to a list headed by the endpoint's address, and the
    endpoint has no listener, stream or socket yet. *)
Theorem endpoint_from_str_cases (s : string) :
  match endpoint_from_str SocketAddr to_socket_addrs s with
  | Err k => k = InvalidInput
  | Ok e =>
      exists b rest, s = (protocol_fmt (protocol e) ++ "://" ++ b)%string
        /\ to_socket_addrs b = Ok (addr e :: rest)
        /\ tcp_listener e = None /\ tcp_stream e = [] /\ udp_socket e = None
  end.
Proof.
  unfold endpoint_from_str.
  pose proof (split_sep_join s) as Hj.
  destruct (split_sep s) as [|p0 [|p1 [|p2 ps]]]; cbn [length Nat.eqb negb]; try reflexivity.
  destruct (protocol_from_str p0) as [pr|] eqn:Hp; [|reflexivity].
  destruct (to_socket_addrs p1) as [[|a rest]|] eqn:Hr; try reflexivity.
  exists p1, rest. cbn. apply protocol_from_str_iff in Hp. subst. split_and!; (reflexivity || assumption).
Qed.

End Endpoints.

Lemma endpoint_from_str_fmt_witness :
  (~ (exists x y, (fun a : string => a) "h" = (x ++ "://" ++ y)%string)) /\
  (fun a : string => Ok [a]) ((fun a : string => a) "h") = Ok ["h"] /\
  endpoint_from_str string (fun a => Ok [a]) (endpoint_fmt string (fun a => a) (mkEndpoint TCP "h" None [] None))
  = Ok (mkEndpoint TCP "h" None [] None).
Proof.
  assert (Hn : ~ (exists x y, (fun a : string => a) "h" = (x ++ "://" ++ y)%string)).
  { intros (x & y & H). destruct x as [|c [|c' x]]; vm_compute in H; congruence. }
  split; [exact Hn|split; [reflexivity|]].
  exact (endpoint_from_str_fmt string (fun a => a) (fun a => Ok [a])
           (mkEndpoint TCP "h" None [] None) [] Hn eq_refl).
Defined.
End CommonFacts.

Module SendFacts.
Import Common.

Section Send.
Variable SocketAddr : Type.
Variable os : nat -> Syscall SocketAddr -> option ErrorKind.

Lemma retain_live_wire (hs : list nat) (o : Os) : wire (snd (retain_live SocketAddr os hs o)) = wire o.
Proof.
  revert o; induction hs as [|h t IH]; intros o; [reflexivity|]. cbn.
  destruct (retain_live SocketAddr os t _) as [t' o2] eqn:E.
  specialize (IH (mkOs (S (ncall o)) (wire o))). rewrite E in IH. exact IH.
Qed.

(** X9: after [send_message] on a [tcp] endpoint, the endpoint holds a stream
    exactly when the call returned [Ok(())]; an [Ok] call put the message,
    unchanged, on the wire of the first stream; a failing call leaves no
    stream, so the next call connects anew. *)
Theorem send_message_tcp_stream_iff_ok (m : string) (a : NetworkEndpoint SocketAddr) (o : Os) :
  protocol a = TCP ->
  let '(r, a', o') := send_message SocketAddr os m a o in
  protocol a' = TCP /\ addr a' = addr a /\
  (r = Ok tt <-> tcp_stream a' <> []) /\
  (r = Ok tt -> exists h t, tcp_stream a' = h :: t /\ wire o' = wire o ++ [(h, m)]).
Proof.
  intros Hp. unfold send_message. rewrite Hp.
  destruct (retain_live SocketAddr os (tcp_stream a) o) as [live o1] eqn:Hl.
  assert (Hw1 : wire o1 = wire o).
  { pose proof (retain_live_wire (tcp_stream a) o) as W. rewrite Hl in W. exact W. }
  destruct live as [|h0 t0].
  - unfold syscall at 1. cbn.
    destruct (os (ncall o1) (TcpConnect (addr a))) as [k|] eqn:Hc; cbn.
    + split_and!; try assumption; try reflexivity; [split; [discriminate|congruence]|discriminate].
    + destruct (os (S (ncall o1)) (SetKeepalive (ncall o1))) as [k|] eqn:Hk; cbn.
      * split_and!; try assumption; try reflexivity; [split; [discriminate|congruence]|discriminate].
      * destruct (os (S (S (ncall o1))) (TcpWrite (ncall o1) m)) as [k|] eqn:Hwr; cbn.
        -- split_and!; try assumption; try reflexivity; [split; [discriminate|congruence]|discriminate].
        -- split_and!; try assumption; try reflexivity; [split; [discriminate|reflexivity]|].
           intros _. exists (ncall o1), []. split; [reflexivity|]. now rewrite Hw1.
  - cbn. unfold syscall. cbn.
    destruct (os (ncall o1) (TcpWrite h0 m)) as [k|] eqn:Hwr; cbn.
    + split_and!; try assumption; try reflexivity; [split; [discriminate|congruence]|discriminate].
    + split_and!; try assumption; try reflexivity; [split; [discriminate|reflexivity]|].
      intros _. exists h0, t0. split; [reflexivity|]. now rewrite Hw1.
Qed.

(** X10: [send_message] on a [udp] endpoint keeps its protocol, address
    and TCP fields, and a socket the endpoint has stays, whatever the
    outcome: unlike a [tcp] endpoint, a failed send does not drop it. An
    [Ok] call left the endpoint with a socket and put the message, once and
    unchanged, on the wire of that socket. *)
Theorem send_message_udp_socket_kept (m : string) (a : NetworkEndpoint SocketAddr) (o : Os) :
  protocol a = UDP ->
  let '(r, a', o') := send_message SocketAddr os m a o in
  protocol a' = UDP /\ addr a' = addr a /\
  tcp_listener a' = tcp_listener a /\ tcp_stream a' = tcp_stream a /\
  (forall u, udp_socket a = Some u -> udp_socket a' = Some u) /\
  (r = Ok tt -> exists u, udp_socket a' = Some u /\ wire o' = wire o ++ [(u, m)]).
Proof.
  intros Hp. unfold send_message. rewrite Hp.
  destruct (udp_socket a) as [u|] eqn:Hu; cbn.
  - rewrite Hu. unfold syscall; cbn.
    destruct (os (ncall o) (UdpSend u m)); cbn;
      (split_and!; [exact Hp | reflexivity | reflexivity | reflexivity | congruence |]).
    + discriminate.
    + intros _. exists u. split; [exact Hu|]. reflexivity.
  - unfold syscall; cbn.
    destruct (os (ncall o) UdpBind); cbn.
    + split_and!; [exact Hp | reflexivity | reflexivity | reflexivity | discriminate | discriminate].
    + destruct (os (S (ncall o)) (UdpConnect (ncall o) (addr a))); cbn.
      * split_and!; [exact Hp | reflexivity | reflexivity | reflexivity | discriminate | discriminate].
      * destruct (os (S (S (ncall o))) (UdpSend (ncall o) m)); cbn;
          (split_and!; [exact Hp | reflexivity | reflexivity | reflexivity | discriminate |]).
        -- discriminate.
        -- intros _. exists (ncall o). split; reflexivity.
Qed.


End Send.

Definition os_ok (n : nat) (c : Syscall nat) : option ErrorKind := None.
Definition os0 : Os := mkOs 0 [].

Lemma send_message_tcp_stream_iff_ok_witness :
  protocol (mkEndpoint TCP 7 None [] None) = TCP /\
  let '(r, a', o') := send_message nat os_ok "x" (mkEndpoint TCP 7 None [] None) os0 in
  protocol a' = TCP /\ addr a' = addr (mkEndpoint TCP 7 None [] None) /\
  (r = Ok tt <-> tcp_stream a' <> []) /\
  (r = Ok tt -> exists h t, tcp_stream a' = h :: t /\ wire o' = wire os0 ++ [(h, "x")]).
Proof.
  split; [reflexivity|].
  exact (send_message_tcp_stream_iff_ok nat os_ok "x" (mkEndpoint TCP 7 None [] None) os0 eq_refl).
Defined.

Lemma send_message_udp_socket_kept_witness :
  protocol (mkEndpoint UDP 7 None [] None) = UDP /\
  let '(r, a', o') := send_message nat os_ok "x" (mkEndpoint UDP 7 None [] None) os0 in
  protocol a' = UDP /\ addr a' = addr (mkEndpoint UDP 7 None [] None) /\
  tcp_listener a' = tcp_listener (mkEndpoint UDP 7 None [] None) /\
  tcp_stream a' = tcp_stream (mkEndpoint UDP 7 None [] None) /\
  (forall u, udp_socket (mkEndpoint UDP 7 None [] None) = Some u -> udp_socket a' = Some u) /\
  (r = Ok tt -> exists u, udp_socket a' = Some u /\ wire o' = wire os0 ++ [(u, "x")]).
Proof.
  split; [reflexivity|].
  exact (send_message_udp_socket_kept nat os_ok "x" (mkEndpoint UDP 7 None [] None) os0 eq_refl).
Defined.

End SendFacts.

Module ReceiverFacts.
Import Receiver StrFacts.


(** Bytes of a line of text: ASCII, and neither ['\n'] nor ['\r']. *)
Definition line_char (c : ascii) : bool :=
  Nat.ltb (nat_of_ascii c) 128 && negb (Ascii.eqb c (ascii_of_nat 10))
  && negb (Ascii.eqb c (ascii_of_nat 13)).

(** Bytes the formatters of [location.rs] print: those of a line, and not
    ['$'] or ['/']. *)
Definition plain (c : ascii) : bool :=
  line_char c && negb (Ascii.eqb c "$"%char) && negb (Ascii.eqb c "/"%char).

Definition Plain (s : string) : Prop := all_chars plain s = true.

Lemma all_chars_app (f : ascii -> bool) (a b : string) :
  all_chars f (a ++ b) = all_chars f a && all_chars f b.
Proof.
  induction a as [|c a IH]; [reflexivity|].
  rewrite append_cons. cbn. rewrite IH. now destruct (f c).
Qed.

Lemma Plain_app (a b : string) : Plain a -> Plain b -> Plain (a ++ b).
Proof. unfold Plain. rewrite all_chars_app. intros -> ->. reflexivity. Qed.

Lemma digit_plain (k : nat) : (k < 10)%nat -> plain (ascii_of_nat (48 + k)) = true.
Proof. intros H. do 10 (destruct k as [|k]; [reflexivity|]). lia. Qed.

Lemma digits_aux_plain (fuel : nat) (n : Z) (acc : string) :
  Plain acc -> Plain (Fmt.digits_aux fuel n acc).
Proof.
  revert n acc; induction fuel as [|f IH]; intros n acc Ha; [exact Ha|]. cbn.
  assert (Hd : Plain (String (ascii_of_nat (48 + Z.to_nat (n mod 10))) acc)).
  { unfold Plain. cbn [all_chars]. rewrite digit_plain; [exact Ha|].
    pose proof (Z.mod_pos_bound n 10 ltac:(lia)). lia. }
  destruct (n <? 10)%Z; [exact Hd|]. apply IH, Hd.
Qed.

Lemma z_to_dec_plain (n : Z) : Plain (Fmt.z_to_dec n).
Proof. apply digits_aux_plain. reflexivity. Qed.

Lemma digits_aux_length (fuel : nat) (n : Z) (acc : string) :
  (String.length acc <= String.length (Fmt.digits_aux fuel n acc))%nat.
Proof.
  revert n acc; induction fuel as [|f IH]; intros n acc; cbn; [lia|].
  destruct (n <? 10)%Z; cbn; [lia|]. specialize (IH (n / 10)%Z (String (ascii_of_nat (48 + Z.to_nat (n mod 10))) acc)).
  cbn in IH. lia.
Qed.

Lemma z_to_dec_nonempty (n : Z) : Fmt.z_to_dec n <> "".
Proof.
  unfold Fmt.z_to_dec. cbn [Fmt.digits_aux].
  match goal with |- context [if ?b then ?x else Fmt.digits_aux ?f ?m ?a] =>
    destruct b; [discriminate|] end.
  intros H. pose proof (digits_aux_length (Z.to_nat (Z.log2 n)) (n / 10)%Z
    (String (ascii_of_nat (48 + Z.to_nat (n mod 10))) "")) as L.
  rewrite H in L. cbn in L. lia.
Qed.

Lemma zeros_plain (k : nat) : Plain (string_of_list_ascii (repeat "0"%char k)).
Proof. induction k as [|k IH]; [reflexivity|]. exact IH. Qed.

Lemma pad_zero_plain (w : nat) (s : string) : Plain s -> Plain (Fmt.pad_zero w s).
Proof. intros H. apply Plain_app; [apply zeros_plain|exact H]. Qed.

Lemma fixed_digits_plain (n : Z) (p : nat) : Plain (Fmt.fixed_digits n p).
Proof.
  destruct p; cbn [Fmt.fixed_digits]; [apply z_to_dec_plain|].
  apply Plain_app; [apply z_to_dec_plain|]. apply Plain_app; [reflexivity|].
  apply pad_zero_plain, z_to_dec_plain.
Qed.

Lemma fmt_fixed_plain (p : nat) (x : float) : Plain (Fmt.fmt_fixed p x).
Proof.
  unfold Fmt.fmt_fixed. destruct (Prim2SF x) as [s|s| |s m e]; try reflexivity;
    try (destruct s; reflexivity);
    (apply Plain_app; [destruct s; reflexivity|apply fixed_digits_plain]).
Qed.

Lemma format_lat_long_plain (l : option float) (is_lat : bool) :
  Plain (format_lat_long l is_lat).
Proof.
  destruct l as [v|]; [|reflexivity]. cbn.
  apply Plain_app; [apply fmt_fixed_plain|]. apply Plain_app; [reflexivity|].
  destruct is_lat; repeat match goal with |- context [if ?b then _ else _] => destruct b end; reflexivity.
Qed.

Lemma format_option_plain (v : option float) : Plain (format_option v).
Proof. destruct v; [apply fmt_fixed_plain|reflexivity]. Qed.

Lemma two_digits_plain (n : Z) : Plain (two_digits n).
Proof. apply pad_zero_plain, z_to_dec_plain. Qed.

Lemma fmt_time_plain (t : Utc) : Plain (fmt_time t).
Proof. unfold fmt_time. apply Plain_app; [|apply Plain_app]; apply two_digits_plain. Qed.

Lemma fmt_date_plain (t : Utc) : Plain (fmt_date t).
Proof. unfold fmt_date. apply Plain_app; [|apply Plain_app]; apply two_digits_plain. Qed.

Create HintDb plain_db.
#[local] Hint Resolve Plain_app z_to_dec_plain format_lat_long_plain format_option_plain
  fmt_time_plain fmt_date_plain : plain_db.
#[local] Hint Extern 1 (Plain _) => reflexivity : plain_db.

(** A string made of [Plain] text and a final CRLF. *)
Definition PlainLine (s : string) : Prop := exists T, s = (T ++ crlf)%string /\ Plain T.

Lemma PlainLine_app (a s : string) : Plain a -> PlainLine s -> PlainLine (a ++ s).
Proof.
  intros Ha (T & -> & HT). exists (a ++ T)%string. split.
  - now rewrite string_app_assoc.
  - now apply Plain_app.
Qed.

Lemma PlainLine_crlf : PlainLine crlf.
Proof. exists "". split; reflexivity. Qed.

#[local] Hint Resolve PlainLine_app PlainLine_crlf : plain_db.

(** Who a location sentence names: the mmsi of the data, or [self.mmsi] for
    an [Rmc]. *)
Definition sender_id (mmsi : Z) (m : ParsedMessage) : Z :=
  match m with VesselDynamicData_ d => vd_mmsi d | _ => mmsi end.

Lemma nmea_message_shape (mmsi : Z) (m : ParsedMessage) (now : Utc) (p : string) :
  Location.nmea_message mmsi m now = Some p ->
  exists T, p = (Fmt.z_to_dec (sender_id mmsi m) ++ "$GNRMC," ++ T ++ crlf)%string /\ Plain T.
Proof.
  destruct m; cbn [Location.nmea_message]; intros H; try discriminate;
    injection H as <-; cbn [sender_id];
  match goal with |- exists T, (?z ++ "$GNRMC," ++ ?X)%string = _ /\ _ =>
    assert (HX : PlainLine X) by (repeat (apply PlainLine_app; [eauto 10 with plain_db|]);
                                  apply PlainLine_crlf);
    destruct HX as (T & HX & HT); exists T; split; [rewrite HX; reflexivity|exact HT]
  end.
Qed.

Lemma plain_line_char (c : ascii) : plain c = true -> line_char c = true.
Proof. unfold plain. now intros [[H _]%andb_prop _]%andb_prop. Qed.

Lemma plain_not_dollar (c : ascii) : plain c = true -> Ascii.eqb c "$"%char = false.
Proof. unfold plain. intros [[_ H]%andb_prop _]%andb_prop. now destruct (Ascii.eqb c _). Qed.

Lemma plain_not_slash (c : ascii) : plain c = true -> c <> "/"%char.
Proof. unfold plain. intros [_ H]%andb_prop ->. discriminate. Qed.

Lemma line_char_not_nl (c : ascii) : line_char c = true -> Ascii.eqb c (ascii_of_nat 10) = false.
Proof. unfold line_char. intros [[_ H]%andb_prop _]%andb_prop. now destruct (Ascii.eqb c _). Qed.

Lemma line_char_ascii (c : ascii) : line_char c = true -> Nat.ltb (nat_of_ascii c) 128 = true.
Proof. unfold line_char. now intros [[H _]%andb_prop _]%andb_prop. Qed.

Lemma Plain_line (s : string) : Plain s -> all_chars line_char s = true.
Proof.
  unfold Plain. induction s as [|c s IH]; [reflexivity|]. cbn.
  intros [Hc Hs]%andb_prop. now rewrite plain_line_char, IH.
Qed.

Lemma read_line_split_line (L r : string) :
  all_chars line_char L = true -> read_line_split ((L ++ crlf) ++ r) = ((L ++ crlf)%string, r).
Proof.
  induction L as [|c L IH]; [reflexivity|]. cbn [all_chars].
  intros [Hc HL]%andb_prop. rewrite !append_cons. cbn [read_line_split].
  rewrite line_char_not_nl by exact Hc. now rewrite IH.
Qed.

Lemma utf8_valid_line (L : string) : all_chars line_char L = true -> utf8_valid (L ++ crlf) = true.
Proof.
  induction L as [|c L IH]; [reflexivity|]. cbn [all_chars].
  intros [Hc HL]%andb_prop. rewrite append_cons. cbn [utf8_valid].
  rewrite line_char_ascii by exact Hc. now apply IH.
Qed.

Lemma lines_aux_line (L s : string) (cur : list ascii) :
  all_chars line_char L = true ->
  lines_aux (L ++ s) cur = lines_aux s (rev (list_ascii_of_string L) ++ cur).
Proof.
  revert cur; induction L as [|c L IH]; intros cur; [reflexivity|]. cbn [all_chars].
  intros [Hc HL]%andb_prop. rewrite append_cons. cbn [lines_aux].
  rewrite line_char_not_nl by exact Hc. rewrite IH by exact HL.
  cbn [list_ascii_of_string rev]. now rewrite <- app_assoc.
Qed.

Lemma lines_line (L : string) : all_chars line_char L = true -> lines (L ++ crlf) = [L].
Proof.
  intros H. unfold lines. rewrite lines_aux_line by exact H. rewrite app_nil_r.
  cbn. replace (ascii_of_nat 13 =? ascii_of_nat 10)%char with false by reflexivity.
  rewrite !Ascii.eqb_refl, rev_involutive. now rewrite string_of_list_ascii_of_string.
Qed.

Definition no_dollar (c : ascii) : bool := negb (Ascii.eqb c "$"%char).

Lemma index_dollar_nd (z R : string) :
  all_chars no_dollar z = true -> String.index 0 "$" (z ++ String "$" R) = Some (String.length z).
Proof.
  induction z as [|c z IH].
  { intros _. change ("" ++ String "$" R)%string with (String "$" R). cbn.
    destruct (ascii_dec "$"%char "$"%char); [|congruence]. now destruct R. }
  cbn [all_chars].
  intros [Hc Hz]%andb_prop. rewrite append_cons. cbn [String.index].
  replace (String.prefix "$" (String c (z ++ String "$" R))) with false.
  - now rewrite IH.
  - cbn [String.prefix]. destruct (ascii_dec "$"%char c) as [<-|]; [discriminate|reflexivity].
Qed.

Lemma Plain_no_dollar (z : string) : Plain z -> all_chars no_dollar z = true.
Proof.
  unfold Plain. induction z as [|c z IH]; [reflexivity|]. cbn.
  intros [Hc Hz]%andb_prop. unfold no_dollar. rewrite plain_not_dollar by exact Hc. now apply IH.
Qed.

Lemma index_dollar (z R : string) :
  Plain z -> String.index 0 "$" (z ++ String "$" R) = Some (String.length z).
Proof. intros H. now apply index_dollar_nd, Plain_no_dollar. Qed.

Lemma length_append (a b : string) : String.length (a ++ b) = (String.length a + String.length b)%nat.
Proof. induction a as [|c a IH]; [reflexivity|]. rewrite append_cons. cbn. now rewrite IH. Qed.

Lemma substring_prefix (a b : string) : substring 0 (String.length a) (a ++ b) = a.
Proof. induction a as [|c a IH]; [now destruct b|]. rewrite append_cons. cbn. now rewrite IH. Qed.

Lemma substring_all (s : string) : substring 0 (String.length s) s = s.
Proof. induction s as [|c s IH]; [reflexivity|]. cbn. now rewrite IH. Qed.

Lemma substring_suffix (a b : string) :
  substring (String.length a) (String.length (a ++ b) - String.length a) (a ++ b) = b.
Proof.
  rewrite length_append, Nat.add_comm, Nat.add_sub.
  induction a as [|c a IH]; [apply substring_all|]. rewrite append_cons. exact IH.
Qed.

Lemma path_join_relative (base name : string) :
  (forall c, String.get 0 name = Some c -> c <> "/"%char) ->
  path_join base name = (base ++ "/" ++ name)%string.
Proof.
  unfold path_join. destruct (String.get 0 name) as [c|]; [|reflexivity].
  intros H. specialize (H c eq_refl).
  destruct c as [[] [] [] [] [] [] [] []]; try reflexivity. contradiction.
Qed.

Lemma process_message_sentence (z T : string) (y : Z) :
  Plain z -> z <> "" -> Plain T ->
  process_message (z ++ "$GNRMC," ++ T) "/var/db" y
  = Append ("/var/db/" ++ z ++ "_" ++ display_i32 y ++ "_rmc.db") ("$GNRMC," ++ T ++ crlf).
Proof.
  intros Hz Hne HT. unfold process_message.
  change ("$GNRMC," ++ T)%string with (String "$" ("GNRMC," ++ T)).
  change ("$GNRMC," ++ T ++ crlf)%string with (String "$" ("GNRMC," ++ T ++ crlf)).
  rewrite (index_dollar z _ Hz).
  destruct z as [|c z']; [congruence|]. cbn [String.length Nat.eqb].
  rewrite (substring_prefix (String c z')), (substring_suffix (String c z')).
  change (slice (String "$" ("GNRMC," ++ T)) 3 6) with (Some "RMC").
  cbv beta iota. change (to_lowercase "RMC") with "rmc".
  rewrite path_join_relative.
  - reflexivity.
  - intros c' Hc'. cbn in Hc'. injection Hc' as <-. apply plain_not_slash.
    unfold Plain in Hz. cbn in Hz. now destruct (plain c).
Qed.

Lemma connection_loop_step (year : nat -> Z) (f : nat) (input : string) (k : nat) :
  input <> "" ->
  connection_loop year (S f) input k =
  let (buffer, rest) := read_line_split input in
  if utf8_valid buffer then
    let '(os, k', panicked) := process_buffer year (lines buffer) k in
    if panicked then os else os ++ connection_loop year f rest k'
  else [].
Proof. destruct input; [congruence|reflexivity]. Qed.

Lemma gnrmc_line (T : string) : Plain T -> all_chars line_char ("$GNRMC," ++ T) = true.
Proof. intros H. rewrite all_chars_app. apply Plain_line in H. now rewrite H. Qed.

Lemma short_message_panic (id r db : string) (y : Z) :
  id <> "" -> all_chars no_dollar id = true -> (String.length r < 5)%nat ->
  process_message (id ++ String "$" r) db y = Panic.
Proof.
  intros Hne Hd Hr. unfold process_message. rewrite (index_dollar_nd id r Hd).
  destruct id as [|c id']; [congruence|]. cbn [String.length Nat.eqb].
  rewrite (substring_suffix (String c id')).
  unfold slice. replace (Nat.leb 6 (String.length (String "$" r))) with false.
  - reflexivity.
  - symmetry. apply Nat.leb_gt. cbn. lia.
Qed.

(** X11: a line whose text from its first ['$'] has fewer than 6 bytes
    makes [process_message] panic at [&message[3..6]]. *)
Theorem process_message_short_panics (id r db : string) (y : Z) :
  id <> "" -> all_chars no_dollar id = true -> (String.length r < 5)%nat ->
  process_message (id ++ String "$" r) db y = Panic.
Proof. apply short_message_panic. Qed.

Lemma connection_loop_line (year : nat -> Z) (f : nat) (L rest : string) (k : nat) :
  all_chars line_char L = true ->
  connection_loop year (S f) ((L ++ crlf) ++ rest) k =
  let '(os, k', panicked) := process_buffer year [L] k in
  if panicked then os else os ++ connection_loop year f rest k'.
Proof.
  intros HL. rewrite connection_loop_step by (destruct L; discriminate).
  rewrite read_line_split_line, utf8_valid_line, lines_line by exact HL. reflexivity.
Qed.

Lemma crlf_lines_length (ls : list string) :
  (length ls <= String.length (concat_str (map (fun l => (l ++ crlf)%string) ls)))%nat.
Proof.
  induction ls as [|l ls IH]; cbn [length map concat_str]; [lia|].
  rewrite !length_append. cbn [String.length crlf]. lia.
Qed.

Lemma short_line_after_lines (year : nat -> Z) (id r : string) :
  id <> "" -> all_chars no_dollar id = true ->
  all_chars line_char id = true -> all_chars line_char r = true ->
  (String.length r < 5)%nat ->
  forall ls k, (forall l, In l ls -> all_chars line_char l = true) ->
  exists outs, forall fuel rest, (length ls < fuel)%nat ->
    connection_loop year fuel
      (concat_str (map (fun l => (l ++ crlf)%string) ls) ++ ((id ++ String "$" r) ++ crlf) ++ rest) k
    = outs ++ [Panic].
Proof.
  intros Hne Hd Hl Hr Hlen.
  assert (HL : all_chars line_char (id ++ String "$" r) = true).
  { rewrite all_chars_app, Hl. cbn. exact Hr. }
  induction ls as [|l ls IH]; intros k Hls.
  - exists []. intros [|f] rest Hf; [cbn in Hf; lia|].
    cbn [map concat_str]. change (("" ++ ?x)%string) with x.
    rewrite connection_loop_line by exact HL. cbn [process_buffer].
    replace (String.eqb (id ++ String "$" r) "") with false by (destruct id; [congruence|reflexivity]).
    rewrite short_message_panic by assumption. reflexivity.
  - assert (Hl0 : all_chars line_char l = true) by (apply Hls; now left).
    destruct (process_buffer year [l] k) as [[os k'] p] eqn:Hb.
    destruct p.
    + exists []. intros [|f] rest Hf; [cbn in Hf; lia|].
      cbn [map concat_str]. rewrite string_app_assoc, connection_loop_line by exact Hl0.
      rewrite Hb. cbn [process_buffer] in Hb.
      destruct (String.eqb l ""); [discriminate|].
      destruct (process_message l "/var/db" (year k)); cbn in Hb; try discriminate.
      injection Hb as <- _. reflexivity.
    + destruct (IH k' (fun l' H => Hls l' (or_intror H))) as [outs Houts].
      exists (os ++ outs). intros [|f] rest Hf; [cbn in Hf; lia|].
      cbn [map concat_str]. rewrite string_app_assoc, connection_loop_line by exact Hl0.
      rewrite Hb, Houts by (cbn in Hf; lia). now rewrite app_assoc.
Qed.

(** X12: after any number of CR LF terminated ASCII lines, a CR LF
    terminated ASCII line with an id before its first ['$'] and fewer than
    6 bytes from that ['$'] ends the connection thread: its outcomes end
    with the panic, and nothing the peer sends after that line changes
    them. *)
Theorem short_line_ends_connection (year : nat -> Z) (ls : list string) (id r rest : string) :
  (forall l, In l ls -> all_chars line_char l = true) ->
  id <> "" -> all_chars no_dollar id = true ->
  all_chars line_char id = true -> all_chars line_char r = true ->
  (String.length r < 5)%nat ->
  connection year (concat_str (map (fun l => (l ++ crlf)%string) ls) ++ ((id ++ String "$" r) ++ crlf) ++ rest)
  = connection year (concat_str (map (fun l => (l ++ crlf)%string) ls) ++ (id ++ String "$" r) ++ crlf) /\
  exists outs,
    connection year (concat_str (map (fun l => (l ++ crlf)%string) ls) ++ (id ++ String "$" r) ++ crlf)
    = outs ++ [Panic].
Proof.
  intros Hls Hne Hd Hl Hr Hlen.
  destruct (short_line_after_lines year id r Hne Hd Hl Hr Hlen ls 0 Hls) as [outs H].
  assert (Hlen2 : forall rest',
    (length ls < String.length (concat_str (map (fun l => (l ++ crlf)%string) ls)
                                ++ ((id ++ String "$" r) ++ crlf) ++ rest'))%nat).
  { intros rest'. pose proof (crlf_lines_length ls).
    rewrite !length_append. cbn [String.length crlf]. lia. }
  unfold connection. split.
  - rewrite (H _ rest (Hlen2 rest)).
    pose proof (H _ "" (Hlen2 "")) as H0. rewrite append_empty_r in H0.
    rewrite <- string_app_assoc in H0 |- *. now rewrite H0.
  - exists outs. pose proof (H _ "" (Hlen2 "")) as H0. rewrite append_empty_r in H0.
    rewrite <- string_app_assoc in H0 |- *. exact H0.
Qed.

Lemma process_message_short_panics_witness :
  "244" <> "" /\ all_chars no_dollar "244" = true /\ (String.length "GP" < 5)%nat /\
  process_message ("244" ++ String "$" "GP") "/var/db" 2025 = Panic.
Proof.
  split_and!; [discriminate|reflexivity|cbn; lia|].
  apply (process_message_short_panics "244" "GP" "/var/db" 2025); [discriminate|reflexivity|cbn; lia].
Defined.

Lemma short_line_ends_connection_witness :
  (forall l, In l ["245$GPRMC,1"] -> all_chars line_char l = true) /\
  "244" <> "" /\ all_chars no_dollar "244" = true /\ all_chars line_char "244" = true /\
  all_chars line_char "GP" = true /\ (String.length "GP" < 5)%nat /\
  (connection (fun _ => 2025%Z)
     (concat_str (map (fun l => (l ++ crlf)%string) ["245$GPRMC,1"]) ++ (("244" ++ String "$" "GP") ++ crlf) ++ "246$GPRMC,1")
   = connection (fun _ => 2025%Z)
     (concat_str (map (fun l => (l ++ crlf)%string) ["245$GPRMC,1"]) ++ ("244" ++ String "$" "GP") ++ crlf) /\
   exists outs, connection (fun _ => 2025%Z)
     (concat_str (map (fun l => (l ++ crlf)%string) ["245$GPRMC,1"]) ++ ("244" ++ String "$" "GP") ++ crlf)
     = outs ++ [Panic]).
Proof.
  assert (H : forall l, In l ["245$GPRMC,1"] -> all_chars line_char l = true).
  { intros l [<-|[]]; reflexivity. }
  split; [exact H|]. split; [discriminate|]. do 3 (split; [reflexivity|]). split; [cbn; lia|].
  apply (short_line_ends_connection (fun _ => 2025%Z) ["245$GPRMC,1"] "244" "GP" "246$GPRMC,1");
    [exact H|discriminate|reflexivity|reflexivity|reflexivity|cbn; lia].
Defined.

Section Stream.
Variable year : nat -> Z.
Variable mmsi : Z.

(** The file a location sentence of sender [id] lands in, at the [k]-th call. *)
Definition sentence_file (k : nat) (id : Z) : string :=
  "/var/db/" ++ Fmt.z_to_dec id ++ "_" ++ display_i32 (year k) ++ "_rmc.db".

(** The outcomes [outs] append, in order, each sentence of [ps] without its
    leading MMSI to the file of its sender. *)
Fixpoint filed (k : nat) (ms : list (ParsedMessage * Utc)) (ps : list string)
    (outs : list Outcome) : Prop :=
  match ms, ps, outs with
  | [], [], [] => True
  | (m, _) :: ms', p :: ps', o :: outs' =>
      (exists data, p = (Fmt.z_to_dec (sender_id mmsi m) ++ data)%string
                    /\ o = Append (sentence_file k (sender_id mmsi m)) data)
      /\ filed (S k) ms' ps' outs'
  | _, _, _ => False
  end.

Lemma connection_loop_sentences (ms : list (ParsedMessage * Utc)) (ps : list string) :
  Forall2 (fun mt p => Location.nmea_message mmsi (fst mt) (snd mt) = Some p) ms ps ->
  forall fuel k, (String.length (concat_str ps) <= fuel)%nat ->
  filed k ms ps (connection_loop year fuel (concat_str ps) k).
Proof.
  induction 1 as [|[m t] p ms ps Hp _ IH]; intros fuel k Hf.
  - destruct fuel; reflexivity.
  - cbn [fst snd] in Hp. apply nmea_message_shape in Hp as (T & -> & HT).
    set (z := Fmt.z_to_dec (sender_id mmsi m)) in *.
    assert (Hz : Plain z) by apply z_to_dec_plain.
    assert (Hne : z <> "") by apply z_to_dec_nonempty.
    assert (Hin : concat_str ((z ++ "$GNRMC," ++ T ++ crlf)%string :: ps)
                  = (((z ++ "$GNRMC," ++ T) ++ crlf) ++ concat_str ps)%string).
    { cbn [concat_str]. now rewrite !string_app_assoc. }
    rewrite Hin in Hf |- *.
    rewrite !length_append in Hf. destruct fuel as [|f]; [cbn in Hf; lia|].
    assert (HL : all_chars line_char (z ++ "$GNRMC," ++ T) = true).
    { rewrite all_chars_app, Plain_line by exact Hz. now apply gnrmc_line. }
    rewrite connection_loop_step.
    2: { destruct z; [congruence|discriminate]. }
    rewrite read_line_split_line by exact HL. rewrite utf8_valid_line by exact HL.
    rewrite lines_line by exact HL. cbn [process_buffer].
    replace (String.eqb (z ++ "$GNRMC," ++ T) "") with false by (destruct z; [congruence|reflexivity]).
    rewrite process_message_sentence by assumption. cbn [app].
    split.
    + exists ("$GNRMC," ++ T ++ crlf)%string. split; reflexivity.
    + apply IH. cbn [String.length] in Hf. unfold crlf in Hf. cbn [String.length] in Hf. lia.
Qed.

(** X14: the Location worker's output read back by the location receiver:
    when a TCP stream carries the sentences [parse_message] builds, one
    after the other, the receiver appends each one, without its leading
    MMSI, to [/var/db/<mmsi>_<year>_rmc.db] of its sender, in order, and
    does nothing else with the stream. *)
Theorem receiver_files_location_sentences (ms : list (ParsedMessage * Utc)) (ps : list string) :
  Forall2 (fun mt p => Location.nmea_message mmsi (fst mt) (snd mt) = Some p) ms ps ->
  filed 0 ms ps (connection year (concat_str ps)).
Proof. intros H. apply connection_loop_sentences; [exact H|lia]. Qed.

End Stream.

Definition own_fix : ParsedMessage :=
  VesselDynamicData_ (mkVDD 244000000 true (Some 53.17%float) (Some 5.42%float)).
Definition fix_time : Utc := mkUtc 2025 1 2 3 4 5 0.
Definition fix_sentence : string :=
  ("244000000$GNRMC,030405,A,5310.20000,N,525.20000,E,,,020125,,,A" ++ crlf)%string.

Lemma receiver_files_location_sentences_witness :
  Forall2 (fun mt p => Location.nmea_message 244000000 (fst mt) (snd mt) = Some p)
    [(own_fix, fix_time)] [fix_sentence] /\
  filed (fun _ => 2025%Z) 244000000 0 [(own_fix, fix_time)] [fix_sentence]
    (connection (fun _ => 2025%Z) (concat_str [fix_sentence])).
Proof.
  assert (H : Forall2 (fun mt p => Location.nmea_message 244000000 (fst mt) (snd mt) = Some p)
                [(own_fix, fix_time)] [fix_sentence]).
  { constructor; [vm_compute; reflexivity|constructor]. }
  split; [exact H|].
  exact (receiver_files_location_sentences (fun _ => 2025%Z) 244000000 _ _ H).
Defined.

End ReceiverFacts.

Module ForwarderFacts.
Import Dispatcher StrFacts.
Local Open Scope Z_scope.

Lemma deadline_bounds (iv last now : Z) :
  last <= now ->
  let elapsed := secs_since now last in
  let r := now + from_secs (if elapsed <? iv then iv - elapsed else 0) in
  (now < last + from_secs iv -> last + from_secs iv <= r < last + from_secs iv + NANOS) /\
  (last + from_secs iv <= now -> r = now).
Proof.
  intros Hle. cbv zeta. unfold secs_since, from_secs.
  rewrite Z.max_r by lia.
  pose proof (Z.div_mod (now - last) NANOS ltac:(unfold NANOS; lia)) as Hd.
  pose proof (Z.mod_pos_bound (now - last) NANOS ltac:(unfold NANOS; lia)) as Hb.
  unfold NANOS in *.
  destruct (Z.ltb_spec ((now - last) / 1000000000) iv); split; intros; lia.
Qed.

(** X15: [next_location_instant] and [next_location_anchor_instant] give
    [last_sent_location] plus the interval, late by the sub-second part of
    the elapsed time (less than one second), while the interval has not
    elapsed; once it has, they give [now]. *)
Theorem next_location_deadlines (li lai last now : Z) :
  last <= now ->
  (now < last + from_secs li ->
     last + from_secs li <= next_location_instant li last now < last + from_secs li + NANOS) /\
  (last + from_secs li <= now -> next_location_instant li last now = now) /\
  (now < last + from_secs lai ->
     last + from_secs lai <= next_location_anchor_instant lai last now < last + from_secs lai + NANOS) /\
  (last + from_secs lai <= now -> next_location_anchor_instant lai last now = now).
Proof.
  intros Hle.
  destruct (deadline_bounds li last now Hle) as [H1 H2].
  destruct (deadline_bounds lai last now Hle) as [H3 H4].
  unfold next_location_instant, next_location_anchor_instant. auto.
Qed.

(** X16: [broadcast_ais] sends the payload to the AIS sinks one by one in
    their order and changes nothing else. It returns [Ok] only after every
    sink took it; on the first failing sink it stops with an error, and the
    sinks after it are not tried. *)
Theorem broadcast_ais_stops_at_failure (ais_net : nat -> string -> bool) (sinks : list string)
    (payload : string) (s : St) :
  let '(r, s') := broadcast_ais ais_net sinks payload s in
  disp s' = disp s /\ locs s' = locs s /\
  location_tx (env s') = location_tx (env s) /\ accepted (env s') = accepted (env s) /\
  match r with
  | Some _ => ais_log (env s') = ais_log (env s) ++ map (fun k => (k, payload, true)) sinks
  | None => exists pre k post, sinks = pre ++ k :: post /\
      ais_log (env s') = ais_log (env s) ++ map (fun k => (k, payload, true)) pre ++ [(k, payload, false)]
  end.
Proof.
  revert s. induction sinks as [|key rest IH]; intros s.
  - cbn. now rewrite app_nil_r.
  - cbn. destruct (ais_net (nais (env s)) key) eqn:Hn.
    + specialize (IH (map_env (fun e => mkEnv (nparse e) (nclock e) (S (nais e))
                                   (ais_log e ++ [(key, payload, true)]) (location_tx e) (accepted e)) s)).
      destruct (broadcast_ais ais_net rest payload _) as [r s'] eqn:Hb.
      destruct IH as (Hd & Hl & Ht & Ha & Hr). cbn in *.
      split_and!; [exact Hd | exact Hl | exact Ht | exact Ha |].
      destruct r as [[]|].
      * rewrite Hr, <- app_assoc. reflexivity.
      * destruct Hr as (pre & k & post & -> & Hlog).
        exists (key :: pre), k, post. split; [reflexivity|].
        rewrite Hlog, <- app_assoc. reflexivity.
    + cbn. split_and!; try reflexivity.
      exists [], key, rest. split; reflexivity.
Qed.

Definition no_newline (c : ascii) : bool := negb (Ascii.eqb c (ascii_of_nat 10)).

Lemma lines_aux_crlf (L s : string) (cur : list ascii) :
  all_chars no_newline L = true ->
  lines_aux (L ++ crlf ++ s) cur = string_of_list_ascii (rev cur ++ list_ascii_of_string L) :: lines_aux s [].
Proof.
  revert cur; induction L as [|c L IH]; intros cur.
  - intros _. change (("" ++ crlf ++ s)%string) with (String (ascii_of_nat 13) (String (ascii_of_nat 10) s)).
    cbn [lines_aux]. replace (ascii_of_nat 13 =? ascii_of_nat 10)%char with false by reflexivity.
    rewrite !Ascii.eqb_refl. cbn [list_ascii_of_string]. now rewrite app_nil_r.
  - cbn [all_chars]. intros [Hc HL]%andb_prop. rewrite append_cons. cbn [lines_aux].
    unfold no_newline in Hc. apply negb_true_iff in Hc. rewrite Hc, IH by exact HL.
    cbn [rev list_ascii_of_string]. now rewrite <- app_assoc.
Qed.

Lemma lines_crlf_concat (ls : list string) :
  (forall l, In l ls -> all_chars no_newline l = true) ->
  lines (concat_str (map (fun l => (l ++ crlf)%string) ls)) = ls.
Proof.
  induction ls as [|l rest IH]; intros H; [reflexivity|].
  cbn [map concat_str]. unfold lines. rewrite string_app_assoc, lines_aux_crlf.
  - cbn [rev app]. rewrite string_of_list_ascii_of_string. f_equal. apply IH.
    intros l' Hin. apply H. now right.
  - apply H. now left.
Qed.

Section Work.
Variable ais : list string.
Variables interval location_interval location_anchor_interval : Z.
Variable parse_sentence : nat -> string -> option ParsedMessage.
Variable clock : nat -> Z.
Variable ais_net : nat -> string -> bool.

(** X17: a provider read made of CR LF terminated sentences is handled
    sentence by sentence, in order, each without its CR LF. *)
Theorem work_event_crlf_lines (ls : list string) :
  (forall l, In l ls -> all_chars no_newline l = true) ->
  work_event ais interval location_interval location_anchor_interval parse_sentence clock ais_net
    (Some (concat_str (map (fun l => (l ++ crlf)%string) ls)))
  = process_lines ais interval location_interval location_anchor_interval parse_sentence clock ais_net ls.
Proof. intros H. cbn [work_event]. now rewrite lines_crlf_concat by exact H. Qed.

End Work.

Lemma next_location_deadlines_witness :
  0 <= 3 * NANOS /\
  (3 * NANOS < 0 + from_secs 5 ->
     0 + from_secs 5 <= next_location_instant 5 0 (3 * NANOS) < 0 + from_secs 5 + NANOS) /\
  (0 + from_secs 5 <= 3 * NANOS -> next_location_instant 5 0 (3 * NANOS) = 3 * NANOS) /\
  (3 * NANOS < 0 + from_secs 2 ->
     0 + from_secs 2 <= next_location_anchor_instant 2 0 (3 * NANOS) < 0 + from_secs 2 + NANOS) /\
  (0 + from_secs 2 <= 3 * NANOS -> next_location_anchor_instant 2 0 (3 * NANOS) = 3 * NANOS).
Proof.
  assert (H : 0 <= 3 * NANOS) by (unfold NANOS; lia).
  split; [exact H | exact (next_location_deadlines 5 2 0 (3 * NANOS) H)].
Defined.

Lemma work_event_crlf_lines_witness :
  (forall l, In l ["!AIVDM,1,1,,A,13u?etPv2;0n:dDPwUM1U1Cb069D,0*24"; "$GPRMC,1"] -> all_chars no_newline l = true) /\
  work_event [] 30 60 600 (fun _ _ => None) (fun _ => 0) (fun _ _ => true)
    (Some (concat_str (map (fun l => (l ++ crlf)%string) ["!AIVDM,1,1,,A,13u?etPv2;0n:dDPwUM1U1Cb069D,0*24"; "$GPRMC,1"])))
  = process_lines [] 30 60 600 (fun _ _ => None) (fun _ => 0) (fun _ _ => true)
      ["!AIVDM,1,1,,A,13u?etPv2;0n:dDPwUM1U1Cb069D,0*24"; "$GPRMC,1"].
Proof.
  assert (H : forall l, In l ["!AIVDM,1,1,,A,13u?etPv2;0n:dDPwUM1U1Cb069D,0*24"; "$GPRMC,1"] ->
                        all_chars no_newline l = true).
  { intros l [<-|[<-|[]]]; reflexivity. }
  split; [exact H|].
  exact (work_event_crlf_lines [] 30 60 600 (fun _ _ => None) (fun _ => 0) (fun _ _ => true) _ H).
Defined.
End ForwarderFacts.
